(** * Compiler_Optimization: a shallow embedding of the Bril passes

    The development follows the Python sources under [examples/]:
    - [dataflow/util.py]       block builder, [flatten], [fresh]
    - [local_opt/global_dce.py], [local_opt/local_dce.py], [local_opt/lvn.py]
    - [dataflow/dataflow.py]   CFG builder and worklist solver
    - [loop/dataflow.py]       second worklist solver, reaching definitions
    - [loop/licm.py]           legality of loop-invariant code motion
    - [memory/dse.py]          alias analysis, memory liveness, dead stores

    Python dictionaries are finite maps ([gmap]), Python sets are [gset],
    a raised exception ([KeyError], [IndexError], [ValueError]) is [None]
    in the option monad, and every [while] loop carries an explicit bound
    on its number of iterations. *)

From stdpp Require Import base option list gmap sets strings pretty sorting.

Open Scope string_scope.
Open Scope list_scope.

(** ** The IR: instructions and functions (the JSON objects) *)

(** A literal of a [const] instruction; the solver of [dataflow.py] also
    stores the string ['?'] in the same slot. *)
Inductive pyval :=
  | PInt (z : Z)
  | PBool (b : bool)
  | PStr (s : string).

(** A Bril type: a name, or the object [{"ptr": t}]. *)
Inductive ty :=
  | TPrim (s : string)
  | TPtr (t : ty).

#[global] Instance pyval_eq_dec : EqDecision pyval.
Proof. solve_decision. Defined.

#[global] Instance ty_eq_dec : EqDecision ty.
Proof. solve_decision. Defined.

(** An instruction is a JSON object; every key is optional, a label is
    an object with the single key [label]. *)
Record instr := Instr {
  i_label : option string;
  i_op : option string;
  i_dest : option string;
  i_type : option ty;
  i_args : option (list string);
  i_value : option pyval;
  i_labels : option (list string);
  i_funcs : option (list string)
}.

#[global] Instance instr_eq_dec : EqDecision instr.
Proof. solve_decision. Defined.

Record farg := FArg { a_name : string; a_type : ty }.

(** A function object: [name], optional [args], optional [type], [instrs]. *)
Record func := Func {
  f_name : string;
  f_args : option (list farg);
  f_type : option ty;
  f_instrs : list instr
}.

Definition set_instrs (f : func) (l : list instr) : func :=
  {| f_name := f_name f; f_args := f_args f; f_type := f_type f; f_instrs := l |}.

(** Everything of a function object but its instruction list. *)
Definition frame (f : func) : string * option (list farg) * option ty :=
  (f_name f, f_args f, f_type f).

(** [instr.get('args', [])] *)
Definition get_args (i : instr) : list string := default [] (i_args i).

(** Truth value of [instr.get('dest')] and of a list, as Python's [if]. *)
Definition truthy_str (o : option string) : bool :=
  match o with Some s => bool_decide (s ≠ "") | None => false end.

Definition has_op (i : instr) (op : string) : bool :=
  bool_decide (i_op i = Some op).

(** Builders for the instruction shapes used in the examples. *)
Definition empty_instr : instr := Instr None None None None None None None None.
Definition ilabel (l : string) : instr :=
  Instr (Some l) None None None None None None None.
Definition iconst (d : string) (t : ty) (v : pyval) : instr :=
  Instr None (Some "const") (Some d) (Some t) None (Some v) None None.
Definition ivalue (op d : string) (t : ty) (args : list string) : instr :=
  Instr None (Some op) (Some d) (Some t) (Some args) None None None.
Definition ieffect (op : string) (args : list string) : instr :=
  Instr None (Some op) None None (Some args) None None None.
Definition ijmp (l : string) : instr :=
  Instr None (Some "jmp") None None None None (Some [l]) None.
Definition ibr (c l1 l2 : string) : instr :=
  Instr None (Some "br") None None (Some [c]) None (Some [l1; l2]) None.
Definition iret : instr :=
  Instr None (Some "ret") None None None None None None.
Definition tint : ty := TPrim "int".

(** [block.pop(j)]: Python raises [IndexError] out of range. *)
Definition list_pop {A} (j : nat) (l : list A) : option (list A) :=
  if decide (j < length l) then Some (delete j l) else None.

(** [l.remove(x)]: drops the first element equal to [x], [ValueError]
    when there is none. *)
Fixpoint py_remove {A} `{EqDecision A} (x : A) (l : list A) : option (list A) :=
  match l with
  | [] => None
  | y :: l' => if decide (x = y) then Some l' else cons y <$> py_remove x l'
  end.

(** [l.index(x)] *)
Fixpoint py_index {A} `{EqDecision A} (x : A) (l : list A) : option nat :=
  match l with
  | [] => None
  | y :: l' => if decide (x = y) then Some 0 else S <$> py_index x l'
  end.

(** [all(f(x) for x in l)] and [any(...)], stopping at the first
    deciding element as the generator protocol does. *)
Fixpoint all_m {A} (f : A → option bool) (l : list A) : option bool :=
  match l with
  | [] => Some true
  | x :: r => b ← f x; if b : bool then all_m f r else Some false
  end.

Fixpoint any_m {A} (f : A → option bool) (l : list A) : option bool :=
  match l with
  | [] => Some false
  | x :: r => b ← f x; if b : bool then Some true else any_m f r
  end.

(** A [for] loop whose body may raise: a left fold in the option monad. *)
Fixpoint foldl_m {A B} (f : B → A → option B) (b : B) (l : list A) : option B :=
  match l with
  | [] => Some b
  | x :: r => b' ← f b x; foldl_m f b' r
  end.

(** ** dataflow/util.py *)
Module Util.

(** [flatten]: [list(itertools.chain( *ll))] *)
Definition flatten {A} (ll : list (list A)) : list A := concat ll.

Definition TERMINATORS : list string := ["br"; "jmp"; "ret"].

(** The generator [form_blocks], with [cur] the pending [cur_block].
    It only looks at the key [op], so it is written over any carrier
    [A] with a view [op_of] of that key: [dse.py] runs it on
    instructions whose storage identity matters. *)
Fixpoint form_blocks_from {A} (op_of : A → option string)
    (cur : list A) (instrs : list A) : list (list A) :=
  match instrs with
  | [] => if cur is [] then [] else [cur]
  | i :: rest =>
      match op_of i with
      | Some op =>
          let cur' := cur ++ [i] in
          if bool_decide (op ∈ TERMINATORS)
          then cur' :: form_blocks_from op_of [] rest
          else form_blocks_from op_of cur' rest
      | None =>
          (if cur is [] then [] else [cur]) ++ form_blocks_from op_of [i] rest
      end
  end.

Definition form_blocks_by {A} (op_of : A → option string) (instrs : list A)
  : list (list A) := form_blocks_from op_of [] instrs.

Definition form_blocks (instrs : list instr) : list (list instr) :=
  form_blocks_by i_op instrs.

(** [fresh(seed, names)]: the loop [while True] tries [seed0], [seed1],
    ...; [n] bounds the number of candidates tried. *)
Fixpoint fresh_from (n : nat) (seed : string) (names : gset string) (i : nat)
  : option string :=
  let name := seed +:+ pretty i in
  if decide (name ∈ names) then
    match n with
    | 0 => None
    | S n' => fresh_from n' seed names (S i)
    end
  else Some name.

Definition fresh (seed : string) (names : gset string) : option string :=
  fresh_from (size names) seed names 0.

End Util.

(** ** local_opt/global_dce.py *)
Module GlobalDce.

(** First inner loop: [used.update(instr["args"])] for every instruction
    that has the key [args]. *)
Definition collect_used (used : gset string) (instrs : list instr) : gset string :=
  foldl (λ u i, if i_args i is Some a then u ∪ list_to_set a else u) used instrs.

(** Second inner loop: [for instr in func["instrs"]] over the list that
    the body shrinks with [remove].  The list iterator keeps a position
    [pos] into the current list and stops when [pos] is past its end;
    a removal shifts the tail left, so the element after a removed one is
    not visited in this sweep.  Returns the list and the flag [converge].
    [n] bounds the number of iterations. *)
Fixpoint sweep (n : nat) (used : gset string) (pos : nat)
    (instrs : list instr) (converge : bool) : option (list instr * bool) :=
  match instrs !! pos with
  | None => Some (instrs, converge)
  | Some i =>
      match n with
      | 0 => None
      | S n' =>
          match i_dest i with
          | Some d =>
              if decide (d ∈ used) then sweep n' used (S pos) instrs converge
              else instrs' ← py_remove i instrs;
                   sweep n' used (S pos) instrs' false
          | None => sweep n' used (S pos) instrs converge
          end
      end
  end.

(** The loop [while not converge]; [used] is created once, before the
    loop, and is only ever added to. *)
Fixpoint global_dce_loop (n : nat) (used : gset string) (instrs : list instr)
  : option (list instr) :=
  match n with
  | 0 => None
  | S n' =>
      let used' := collect_used used instrs in
      '(instrs', converge) ← sweep (length instrs) used' 0 instrs true;
      if converge : bool then Some instrs'
      else global_dce_loop n' used' instrs'
  end.

Definition global_dce_instrs (instrs : list instr) : option (list instr) :=
  global_dce_loop (S (length instrs)) ∅ instrs.

Definition global_dce (f : func) : option func :=
  set_instrs f <$> global_dce_instrs (f_instrs f).

End GlobalDce.

(** ** local_opt/local_dce.py *)
Module LocalDce.

(** [for arg in instr.get('args', []): last_def.pop(arg, None)] *)
Definition forget_args (last_def : gmap string nat) (i : instr) : gmap string nat :=
  foldl (λ m a, delete a m) last_def (get_args i).

(** The loop [for i, instr in enumerate(block)] of one block.  The
    counter of [enumerate] and the position of the list iterator advance
    together, so one number [pos] serves as both; [block.pop] shortens
    the list that is being iterated. *)
Fixpoint scan_block (n : nat) (pos : nat) (last_def : gmap string nat)
    (block : list instr) : option (list instr) :=
  match block !! pos with
  | None => Some block
  | Some i =>
      match n with
      | 0 => None
      | S n' =>
          let last_def := forget_args last_def i in
          match i_dest i with
          | Some dest =>
              block' ← match last_def !! dest with
                       | Some j => list_pop j block
                       | None => Some block
                       end;
              scan_block n' (S pos) (<[dest := pos]> last_def) block'
          | None => scan_block n' (S pos) last_def block
          end
      end
  end.

Definition local_dce_block (block : list instr) : option (list instr) :=
  scan_block (length block) 0 ∅ block.

Definition local_dce_instrs (instrs : list instr) : option (list instr) :=
  Util.flatten <$> mapM local_dce_block (Util.form_blocks instrs).


End LocalDce.

(** ** local_opt/lvn.py *)
Module Lvn.

(** [Value = namedtuple('Value', ['op', 'args'])], the arguments being a
    tuple of value numbers. *)
Definition Value : Type := string * list nat.

(** The four tables of [lvn_block]; [var2num] is a [Numbering], a
    dictionary with the counter [_next_id]. *)
Record tables := Tables {
  var2num : gmap string nat;
  next_id : nat;
  value2num : gmap Value nat;
  num2vars : gmap nat (list string);
  num2const : gmap nat pyval
}.

Definition empty_tables : tables := Tables ∅ 0 ∅ ∅ ∅.

(** [Numbering.add]: binds [key] to the counter and returns it. *)
Definition numbering_add (key : string) (t : tables) : nat * tables :=
  (next_id t,
   Tables (<[key := next_id t]> (var2num t)) (S (next_id t))
          (value2num t) (num2vars t) (num2const t)).

(** [last_writes]: one flag per instruction; the scan runs from the last
    instruction to the first with the set [seen]. *)
Fixpoint last_writes_seen (instrs : list instr) : list bool * gset string :=
  match instrs with
  | [] => ([], ∅)
  | i :: rest =>
      let '(out, seen) := last_writes_seen rest in
      match i_dest i with
      | Some dest =>
          if decide (dest ∈ seen) then (false :: out, seen)
          else (true :: out, {[dest]} ∪ seen)
      | None => (false :: out, seen)
      end
  end.

Definition last_writes (instrs : list instr) : list bool :=
  (last_writes_seen instrs).1.

Definition get_variables_read_before_write (instrs : list instr) : gset string :=
  (foldl (λ '(rbw, written) i,
            (rbw ∪ list_to_set (filter (λ a, a ∉ written) (get_args i)),
             if i_dest i is Some d then {[d]} ∪ written else written))
         ((∅ : gset string), (∅ : gset string)) instrs).1.

Definition canonicalize (value : Value) : Value :=
  if bool_decide (value.1 ∈ ["add"; "mul"])
  then (value.1, merge_sort Nat.le value.2)
  else value.

(** [rhs.remove(dest)] guarded by [dest in rhs], for every list stored
    in [num2vars]. *)
Definition retire (dest : string) (rhs : list string) : list string :=
  default rhs (py_remove dest rhs).

(** [num2vars[n][0]] *)
Definition representative (n2v : gmap nat (list string)) (n : nat) : option string :=
  vars ← n2v !! n; head vars.

(** The body of the loop over [zip(block, last_writes(block))].  The
    instruction object is updated in place; the result carries the
    updated object. *)
Definition lvn_instr (t : tables) (i : instr) (last_write : bool)
  : option (tables * instr) :=
  argnums ← mapM (λ v, var2num t !! v) (get_args i);
  i ← match i_args i with
      | Some _ =>
          names ← mapM (representative (num2vars t)) argnums;
          Some (Instr (i_label i) (i_op i) (i_dest i) (i_type i) (Some names)
                      (i_value i) (i_labels i) (i_funcs i))
      | None => Some i
      end;
  let t := match i_dest i with
           | Some dest => Tables (var2num t) (next_id t) (value2num t)
                                 (retire dest <$> num2vars t) (num2const t)
           | None => t
           end in
  val ← match i_dest i, i_args i with
        | Some _, Some _ =>
            op ← i_op i;
            Some (if decide (op ≠ "call")
                  then Some (canonicalize (op, argnums)) else None)
        | _, _ => Some None
        end;
  let hit := v ← val; num ← value2num t !! v; Some num in
  match i_dest i, hit with
  | Some dest, Some num =>
      let v2n := <[dest := num]> (var2num t) in
      match num2const t !! num with
      | Some c =>
          Some (Tables v2n (next_id t) (value2num t) (num2vars t) (num2const t),
                Instr (i_label i) (Some "const") (i_dest i) (i_type i) None
                      (Some c) (i_labels i) (i_funcs i))
      | None =>
          vars ← num2vars t !! num;
          rep ← head vars;
          Some (Tables v2n (next_id t) (value2num t)
                       (<[num := vars ++ [dest]]> (num2vars t)) (num2const t),
                Instr (i_label i) (Some "id") (i_dest i) (i_type i) (Some [rep])
                      (i_value i) (i_labels i) (i_funcs i))
      end
  | Some dest, None =>
      let '(newnum, t) := numbering_add dest t in
      op ← i_op i;
      n2c ← (if decide (op = "const")
             then c ← i_value i; Some (<[newnum := c]> (num2const t))
             else Some (num2const t));
      let var := if last_write then dest else "lvn." +:+ pretty newnum in
      let v2n := match val with
                 | Some v => <[v := newnum]> (value2num t)
                 | None => value2num t
                 end in
      Some (Tables (var2num t) (next_id t) v2n
                   (<[newnum := [var]]> (num2vars t)) n2c,
            Instr (i_label i) (i_op i) (Some var) (i_type i) (i_args i)
                  (i_value i) (i_labels i) (i_funcs i))
  | None, _ => Some (t, i)
  end.

(** The pre-seeding loop over the variables read before written. *)
Definition seed_tables (vars : list string) : tables :=
  foldl (λ t var,
           let '(num, t) := numbering_add var t in
           Tables (var2num t) (next_id t) (value2num t)
                  (<[num := [var]]> (num2vars t)) (num2const t))
        empty_tables vars.

Fixpoint lvn_loop (t : tables) (items : list (instr * bool))
  : option (list instr) :=
  match items with
  | [] => Some []
  | (i, lw) :: rest =>
      '(t', i') ← lvn_instr t i lw;
      cons i' <$> lvn_loop t' rest
  end.

Definition lvn_block (block : list instr) : option (list instr) :=
  lvn_loop (seed_tables (elements (get_variables_read_before_write block)))
           (zip block (last_writes block)).

(** The body of [for func in prog['functions']]. *)
Definition lvn_func (f : func) : option func :=
  blocks ← mapM lvn_block (Util.form_blocks (f_instrs f));
  Some (set_instrs f (Util.flatten blocks)).

(** [lvn(prog)], the program being its list of functions. *)
Definition lvn (prog : list func) : option (list func) := mapM lvn_func prog.

End Lvn.

(** ** dataflow/dataflow.py *)
Module Dataflow.

(** [Analysis = namedtuple('Analysis', ['forward','init','merge','transfer'])]
    over a lattice value type [V]; the transfer function may raise. *)
Record Analysis (V : Type) := MkAnalysis {
  forward : bool;
  init : V;
  merge : list V → V;
  transfer : list instr → V → option V
}.
Arguments MkAnalysis {V}.
Arguments forward {V}.
Arguments init {V}.
Arguments merge {V}.
Arguments transfer {V}.

(** [union]: [set().union( *sets)] *)
Definition union (sets : list (gset string)) : gset string := ⋃ sets.

(** [cprop_merge]: a variable bound to two different values becomes the
    string ['?']. *)
Definition cprop_join (out d : gmap string pyval) : gmap string pyval :=
  union_with (λ o value, Some (if decide (o = value) then value else PStr "?"))
             out d.

Definition cprop_merge (dicts : list (gmap string pyval)) : gmap string pyval :=
  foldl cprop_join ∅ dicts.

(** [get_block_labels]; the dictionary index -> label is the list of
    labels in block order.  The default of [dict.get] is evaluated
    before the call, as Python does. *)
Fixpoint get_block_labels_from (i : nat) (label_names : gset string)
    (blocks : list (list instr)) : option (list string) :=
  match blocks with
  | [] => Some []
  | block :: rest =>
      first ← head block;
      dflt ← Util.fresh ("block." +:+ pretty i) label_names;
      let label := default dflt (i_label first) in
      cons label <$> get_block_labels_from (S i) ({[label]} ∪ label_names) rest
  end.

Definition get_block_labels (blocks : list (list instr)) : option (list string) :=
  get_block_labels_from 0 ∅ blocks.

(** The successors that [get_cfg] gives to block [i] ending in
    [last_instr]; [n] is [len(blocks)]. *)
Definition successors_of (n : nat) (block_labels : list string) (i : nat)
    (last_instr : instr) : option (list string) :=
  op ← i_op last_instr;
  if decide (op = "jmp") then
    labels ← i_labels last_instr; l ← head labels; Some [l]
  else if decide (op = "br") then i_labels last_instr
  else if decide (i < n - 1) then l ← block_labels !! S i; Some [l]
  else Some [].

Fixpoint get_cfg_from (n : nat) (block_labels : list string) (i : nat)
    (blocks : list (list instr)) (cfg : gmap string (list string))
  : option (gmap string (list string)) :=
  match blocks with
  | [] => Some cfg
  | block :: rest =>
      last_instr ← last block;
      curr_label ← block_labels !! i;
      succ ← successors_of n block_labels i last_instr;
      get_cfg_from n block_labels (S i) rest (<[curr_label := succ]> cfg)
  end.

Definition get_cfg (blocks : list (list instr)) (block_labels : list string)
  : option (gmap string (list string)) :=
  get_cfg_from (length blocks) block_labels 0 blocks ∅.

(** [get_predecessor]: the keys of [cfg] whose successor list holds
    [curr_label]. *)
Definition get_predecessor (cfg : gmap string (list string)) (curr_label : string)
  : list string :=
  (filter (λ kv : string * list string, curr_label ∈ kv.2) (map_to_list cfg)).*1.

(** [live_func], the backward transfer function of liveness. *)
Definition live_func (block : list instr) (Out : gset string) : option (gset string) :=
  Some (foldr (λ i In_,
                 (if i_dest i is Some d then In_ ∖ {[d]} else In_)
                 ∪ list_to_set (get_args i))
              Out block).

(** [cprop_func], the forward transfer function of constant propagation. *)
Definition cprop_instr (Out : gmap string pyval) (i : instr)
  : option (gmap string pyval) :=
  match i_dest i with
  | Some dest =>
      if decide (dest ≠ "") then
        if decide (i_op i = Some "const")
        then v ← i_value i; Some (<[dest := v]> Out)
        else Some (<[dest := PStr "?"]> Out)
      else Some Out
  | None => Some Out
  end.

Definition cprop_func (block : list instr) (In_ : gmap string pyval)
  : option (gmap string pyval) :=
  foldl_m cprop_instr In_ block.

(** The state of [worklist_algorithm]: the worklist and the two
    dictionaries it updates. *)
Record wl_state (V : Type) := WL {
  wl_work : gset string;
  wl_In : gmap string V;
  wl_Out : gmap string V
}.
Arguments WL {V}.
Arguments wl_work {V}.
Arguments wl_In {V}.
Arguments wl_Out {V}.

Section worklist.
Context {V : Type} `{EqDecision V}.
Variables (cfg : gmap string (list string)) (block_labels : list string)
          (blocks : list (list instr)).
Variables (transfer_fn : list instr → V → option V) (merge_fn : list V → V).

(** One iteration of the loop [while worklist], for the label
    [curr_label] that [worklist.pop()] returned. *)
Definition worklist_step (fwd : bool) (curr_label : string) (s : wl_state V)
  : option (wl_state V) :=
  let work := wl_work s ∖ {[curr_label]} in
  if fwd then
    outs ← mapM (λ pred_label, wl_Out s !! pred_label)
                (get_predecessor cfg curr_label);
    let In_ := <[curr_label := merge_fn outs]> (wl_In s) in
    block_index ← py_index curr_label block_labels;
    curr_block ← blocks !! block_index;
    Out_old ← wl_Out s !! curr_label;
    new ← transfer_fn curr_block (merge_fn outs);
    let Out := <[curr_label := new]> (wl_Out s) in
    if decide (new ≠ Out_old)
    then succ ← cfg !! curr_label; Some (WL (work ∪ list_to_set succ) In_ Out)
    else Some (WL work In_ Out)
  else
    succ ← cfg !! curr_label;
    ins ← mapM (λ succ_label, wl_In s !! succ_label) succ;
    let Out := <[curr_label := merge_fn ins]> (wl_Out s) in
    block_index ← py_index curr_label block_labels;
    curr_block ← blocks !! block_index;
    In_old ← wl_In s !! curr_label;
    new ← transfer_fn curr_block (merge_fn ins);
    let In_ := <[curr_label := new]> (wl_In s) in
    if decide (new ≠ In_old)
    then Some (WL (work ∪ list_to_set (get_predecessor cfg curr_label)) In_ Out)
    else Some (WL work In_ Out).

(** [worklist.pop()] returns an arbitrary member of the set.  A run is
    described by the sequence [pops] of labels it returned: each must be
    in the worklist when it is popped. *)
Fixpoint worklist_run (fwd : bool) (pops : list string) (s : wl_state V)
  : option (wl_state V) :=
  match pops with
  | [] => Some s
  | curr_label :: rest =>
      if decide (curr_label ∈ wl_work s)
      then s' ← worklist_step fwd curr_label s; worklist_run fwd rest s'
      else None
  end.

(** [worklist_algorithm] returns [(In, Out)] once the worklist is empty. *)
Definition worklist_algorithm (fwd : bool) (pops : list string) (s : wl_state V)
  : option (gmap string V * gmap string V) :=
  s' ← worklist_run fwd pops s;
  if decide (wl_work s' = ∅) then Some (wl_In s', wl_Out s') else None.

End worklist.

(** [run_df] up to the call of [worklist_algorithm], whose result it
    holds in [In], [Out]. *)
Definition run_df {V} `{EqDecision V} (f : func) (analysis : Analysis V)
    (pops : list string) : option (gmap string V * gmap string V) :=
  let blocks := Util.form_blocks (f_instrs f) in
  block_labels ← get_block_labels blocks;
  cfg ← get_cfg blocks block_labels;
  let worklist : gset string := list_to_set block_labels in
  let In_ : gmap string V := gset_to_gmap (init analysis) worklist in
  let Out : gmap string V := gset_to_gmap (init analysis) worklist in
  worklist_algorithm cfg block_labels blocks (transfer analysis) (merge analysis)
                     (forward analysis) pops (WL worklist In_ Out).

(** The table [ANALYSES]. *)
Definition live : Analysis (gset string) := MkAnalysis false ∅ union live_func.
Definition cprop : Analysis (gmap string pyval) := MkAnalysis true ∅ cprop_merge cprop_func.

End Dataflow.

(** Modelled from the spec: the class [GraphNode] of the module [cfg]
    that [loop/dataflow.py] and [loop/licm.py] import; the CFG maps a
    block label to its predecessor and successor label sets. *)
Record GraphNode := MkGraphNode {
  predecessors : gset string;
  successors : gset string
}.

(** ** loop/dataflow.py *)
Module LoopDataflow.

Record df_state (V : Type) := DF {
  df_work : gset string;
  df_ins : gmap string V;
  df_outs : gmap string V
}.
Arguments DF {V}.
Arguments df_work {V}.
Arguments df_ins {V}.
Arguments df_outs {V}.

Section data_flow_analysis.
Context {V : Type} `{EqDecision V}.
Variables (graph : gmap string GraphNode) (label2block : gmap string (list instr)).
Variables (fwd : bool) (init : V) (merge_fn : list V → V)
          (transfer_fn : list instr → V → option V).

(** One iteration of [while worklist] for the popped label [b]. *)
Definition df_step (b : string) (s : df_state V) : option (df_state V) :=
  let work := df_work s ∖ {[b]} in
  node ← graph !! b;
  let near := if fwd then predecessors node else successors node in
  vals ← mapM (λ x, df_outs s !! x) (elements near);
  let ins := <[b := merge_fn vals]> (df_ins s) in
  block ← label2block !! b;
  new_outs ← transfer_fn block (merge_fn vals);
  old ← df_outs s !! b;
  if decide (old ≠ new_outs)
  then Some (DF (work ∪ (if fwd then successors node else predecessors node))
                ins (<[b := new_outs]> (df_outs s)))
  else Some (DF work ins (df_outs s)).

Fixpoint df_run (pops : list string) (s : df_state V) : option (df_state V) :=
  match pops with
  | [] => Some s
  | b :: rest =>
      if decide (b ∈ df_work s)
      then s' ← df_step b s; df_run rest s'
      else None
  end.

Definition df_init : df_state V :=
  DF (dom graph) ∅ (gset_to_gmap init (dom graph)).

(** [data_flow_analysis]; [pops] is the sequence of labels returned by
    [worklist.pop()]. *)
Definition data_flow_analysis (pops : list string)
  : option (gmap string V * gmap string V) :=
  s ← df_run pops df_init;
  if decide (df_work s = ∅)
  then Some (if fwd then (df_ins s, df_outs s) else (df_outs s, df_ins s))
  else None.

End data_flow_analysis.

Definition union_sets (l : list (gset string)) : gset string := ⋃ l.

(** [merge_dicts]: for every key of some dictionary, the union of the
    sets bound to it. *)
Definition merge_dicts (l : list (gmap string (gset string)))
  : gmap string (gset string) :=
  foldr (union_with (λ a b, Some (a ∪ b))) ∅ l.

(** [merge_consts]; Python's [None] is the inner [None]. *)
Definition merge_consts (l : list (gmap string (option pyval)))
  : gmap string (option pyval) :=
  foldl (union_with (λ r const, Some (if decide (r ≠ const) then None else r)))
        ∅ l.

(** [get_var_defs]: the last defining instruction of each variable. *)
Definition get_var_defs (instrs : list instr) : gmap string instr :=
  foldl (λ m i, if i_dest i is Some d then <[d := i]> m else m) ∅ instrs.

(** [str] of a type and of a literal, as an f-string renders them. *)
Fixpoint py_repr_ty (t : ty) : string :=
  match t with
  | TPrim s => "'" +:+ s +:+ "'"
  | TPtr t => "{'ptr': " +:+ py_repr_ty t +:+ "}"
  end.

Definition py_str_ty (t : ty) : string :=
  match t with TPrim s => s | TPtr _ => py_repr_ty t end.

Definition py_str_val (v : pyval) : string :=
  match v with
  | PInt z => pretty z
  | PBool true => "True"
  | PBool false => "False"
  | PStr s => s
  end.

Definition join_prefixed (pre : string) (l : list string) : string :=
  foldr (λ a acc, pre +:+ a +:+ acc) "" l.

Definition format_instruction (defn : instr) : option string :=
  op ← i_op defn;
  _ ← i_type defn;
  let val := if i_value defn is Some v then " " +:+ py_str_val v else "" in
  let args := join_prefixed " " (get_args defn) in
  let funcs := join_prefixed " @" (default [] (i_funcs defn)) in
  let labels := join_prefixed " ." (default [] (i_labels defn)) in
  Some (op +:+ funcs +:+ args +:+ labels +:+ val).

Definition def_string (var : string) (defn : instr) : option string :=
  t ← i_type defn;
  body ← format_instruction defn;
  Some (var +:+ ": " +:+ py_str_ty t +:+ " = " +:+ body +:+ ";").

(** [reaching_defs]: every variable defined in the block is bound to
    the singleton of the text of its last definition. *)
Definition reaching_defs (instrs : list instr) (inv : gmap string (gset string))
  : option (gmap string (gset string)) :=
  gen ← mapM (λ kv : string * instr,
                s ← def_string kv.1 kv.2; Some (kv.1, ({[s]} : gset string)))
             (map_to_list (get_var_defs instrs));
  Some (list_to_map gen ∪ inv).

Definition const_prop (instrs : list instr) (inv : gmap string (option pyval))
  : option (gmap string (option pyval)) :=
  foldl_m (λ outv i,
             match i_dest i with
             | Some d =>
                 op ← i_op i;
                 if decide (op = "const")
                 then v ← i_value i; Some (<[d := Some v]> outv)
                 else Some (<[d := None]> outv)
             | None => Some outv
             end) inv instrs.

Definition live_vars (instrs : list instr) (inv : gset string) : option (gset string) :=
  Some (foldr (λ i outv,
                 (if i_dest i is Some d then outv ∖ {[d]} else outv)
                 ∪ list_to_set (get_args i))
              inv instrs).

End LoopDataflow.

(** ** loop/licm.py: the legality checks and the pre-header *)
Module Licm.

(** A natural loop, [{"entry": h, "loop": set}]. *)
Record natural_loop := MkLoop { l_entry : string; l_blocks : gset string }.

(** An entry of [loop_invariants]: [{"instr": instr, "block": lblock}]. *)
Record invariant := MkInv { inv_instr : instr; inv_block : string }.

Definition uses_var (var : string) (i : instr) : bool :=
  bool_decide (var ∈ get_args i).

Section legality.
Variables (graph : gmap string GraphNode) (label2block : gmap string (list instr)).
Variable (dominators : gmap string (gset string)).

Definition get_loop_exits (loop : natural_loop) : option (gset string) :=
  exits ← mapM (λ lblock,
                  node ← graph !! lblock;
                  Some (lblock,
                        existsb (λ succ, bool_decide (succ ∉ l_blocks loop))
                                (elements (successors node))))
               (elements (l_blocks loop));
  Some (list_to_set (filter (λ p : string * bool, p.2 = true) exits).*1).

Definition is_var_defined_elsewhere (var : string) (vardef : instr)
    (loop : natural_loop) : option bool :=
  any_m (λ lblock,
           block ← label2block !! lblock;
           Some (existsb (λ kv : string * instr,
                            bool_decide (var = kv.1) && bool_decide (vardef ≠ kv.2))
                         (map_to_list (LoopDataflow.get_var_defs block))))
        (elements (l_blocks loop)).

Definition get_loop_blocks_that_use_var (var : string) (loop : natural_loop)
  : option (gset string) :=
  used ← mapM (λ lblock,
                 block ← label2block !! lblock;
                 Some (lblock,
                       existsb (λ i, match i_args i with
                                     | Some a => bool_decide (var ∈ a)
                                     | None => false
                                     end) block))
              (elements (l_blocks loop));
  Some (list_to_set (filter (λ p : string * bool, p.2 = true) used).*1).

(** [is_var_used_in_future]: depth-first search from [start_block]; the
    head of [stack] is the element [stack.pop()] returns.  [n] bounds the
    number of iterations of [while stack]. *)
Fixpoint used_in_future_from (n : nat) (var : string) (visited : gset string)
    (stack : list string) : option bool :=
  match stack with
  | [] => Some false
  | curr_block :: stack =>
      match n with
      | 0 => None
      | S n' =>
          if decide (curr_block ∈ visited)
          then used_in_future_from n' var visited stack
          else
            let visited := {[curr_block]} ∪ visited in
            block ← label2block !! curr_block;
            if existsb (uses_var var) block then Some true
            else
              node ← graph !! curr_block;
              let new := filter (λ succ, succ ∉ visited)
                                (elements (successors node)) in
              used_in_future_from n' var visited (reverse new ++ stack)
      end
  end.

(** Every iteration pops one element, and only the successors of a
    block visited for the first time are pushed. *)
Definition search_bound : nat :=
  S (map_fold (λ _ node acc, size (successors node) + acc) 0 graph).

Definition is_var_used_in_future (var start_block : string) : option bool :=
  used_in_future_from search_bound var ∅ [start_block].

Definition sat_relaxed_cond_3 (exits : gset string) (li_var : string)
    (loop_invariants : gmap string invariant) (loop : natural_loop)
  : option bool :=
  e ← loop_invariants !! li_var;
  if bool_decide (i_op (inv_instr e) ∈ [Some "div"; Some "print"])
  then Some false
  else
    all_m (λ lexit,
             node ← graph !! lexit;
             all_m (λ succ,
                      if decide (succ ∈ l_blocks loop) then Some true
                      else negb <$> is_var_used_in_future li_var succ)
                   (elements (successors node)))
          (elements exits).

Definition can_move (loop_invariants : gmap string invariant) (li_var : string)
    (loop : natural_loop) (exits : gset string) : option bool :=
  e ← loop_invariants !! li_var;
  let li_block := inv_block e in
  elsewhere ← is_var_defined_elsewhere li_var (inv_instr e) loop;
  if elsewhere : bool then Some false
  else
    use_blocks ← get_loop_blocks_that_use_var li_var loop;
    dom_uses ← all_m (λ use_block,
                        d ← dominators !! use_block;
                        Some (bool_decide (li_block ∈ d)))
                     (elements use_blocks);
    if dom_uses : bool then
      all_m (λ lexit,
               d ← dominators !! lexit;
               if decide (li_block ∈ d) then Some true
               else sat_relaxed_cond_3 exits li_var loop_invariants loop)
            (elements exits)
    else Some false.

(** The list comprehension [movable_instrs] of [make_preloop_header]. *)
Definition movable_instrs (loop_invariants : gmap string invariant)
    (loop : natural_loop) (exits : gset string) : option (list instr) :=
  picked ← mapM (λ kv : string * invariant,
                   ok ← can_move loop_invariants kv.1 loop exits;
                   Some (inv_instr kv.2, ok))
                (map_to_list loop_invariants);
  Some (filter (λ p : instr * bool, p.2 = true) picked).*1.

(** [make_preloop_header], as far as the instruction list goes: the
    pre-header block and [new_instrs] with the pre-header spliced in
    before the label of the loop entry.  [preheader_acc] is the global
    counter. *)
Definition make_preloop_header (preheader_acc : nat)
    (loop_invariants : gmap string invariant) (loop : natural_loop)
    (instrs : list instr) : option (list instr * list instr) :=
  let preheader_label := "preheader" +:+ pretty preheader_acc in
  exits ← get_loop_exits loop;
  movable ← movable_instrs loop_invariants loop exits;
  let preloop_header := ilabel preheader_label :: movable in
  let new_instrs := filter (λ i, i ∉ movable) instrs in
  insert_index ← py_index (ilabel (l_entry loop)) new_instrs;
  Some (preloop_header,
        take insert_index new_instrs ++ preloop_header ++ drop insert_index new_instrs).

End legality.
End Licm.

(** ** memory/dse.py *)
Module Dse.

(** An instruction object together with its storage identity
    [id(instr)]; the identity of an instruction of [func['instrs']] is
    its position in that list. *)
Definition obj : Type := nat * instr.

Definition UNKNOWN : string := "unknown".

(** [dict(zip(keys, values))]: a later pair overrides an earlier one. *)
Definition dict_zip {A} (keys : list string) (values : list A) : gmap string A :=
  list_to_map (reverse (zip keys values)).

(** [initialize_labels], the list [labels]. *)
Definition initialize_labels (blocks : list (list instr)) : option (list string) :=
  mapM (λ p : nat * list instr,
          first ← head p.2;
          Some (default ("<bb" +:+ pretty p.1 +:+ ">") (i_label first)))
       (imap pair blocks).

(** [cfg[label].append(x)] / [cfg[label].extend(xs)] *)
Definition cfg_extend (cfg : gmap string (list string)) (label : string)
    (xs : list string) : option (gmap string (list string)) :=
  old ← cfg !! label; Some (<[label := old ++ xs]> cfg).

Definition add_cfg_edge (cfg : gmap string (list string)) (label : string)
    (last_instr : instr) (labels : list string) (idx n_blocks : nat)
  : option (gmap string (list string)) :=
  op ← i_op last_instr;
  if decide (op = "br") then
    targets ← i_labels last_instr; cfg_extend cfg label targets
  else if decide (op = "jmp") then
    targets ← i_labels last_instr; t ← head targets; cfg_extend cfg label [t]
  else if decide (idx + 1 < n_blocks) then
    next ← labels !! (idx + 1); cfg_extend cfg label [next]
  else Some cfg.

Definition build_cfg_edges (blocks : list (list instr)) (labels : list string)
  : option (gmap string (list string)) :=
  foldl_m (λ cfg (p : nat * list instr),
             let '(idx, block) := p in
             label ← labels !! idx;
             match last block with
             | Some last_instr =>
                 if bool_decide (last_instr ≠ empty_instr) && bool_decide (is_Some (i_op last_instr))
                 then add_cfg_edge cfg label last_instr labels idx (length blocks)
                 else if decide (idx + 1 < length blocks)
                      then next ← labels !! (idx + 1); cfg_extend cfg label [next]
                      else Some cfg
             | None =>
                 if decide (idx + 1 < length blocks)
                 then next ← labels !! (idx + 1); cfg_extend cfg label [next]
                 else Some cfg
             end)
          (gset_to_gmap [] (list_to_set labels)) (imap pair blocks).

Definition construct_cfg (blocks : list (list instr))
  : option (gmap string (list string) * list string) :=
  labels ← initialize_labels blocks;
  cfg ← build_cfg_edges blocks labels;
  Some (cfg, labels).

Definition collect_alloc_sites (instrs : list obj) : gmap nat string :=
  (foldl (λ '(sites, counter) (o : obj),
            if has_op o.2 "alloc"
            then (<[o.1 := "alloc_" +:+ pretty counter]> sites, S counter)
            else (sites, counter))
         ((∅ : gmap nat string), 0) instrs).1.

Definition get_func_args (f : func) : list string :=
  a_name <$> default [] (f_args f).

Definition initialize_func_args_state (func_args : list string)
  : gmap string (gset string) :=
  gset_to_gmap {[UNKNOWN]} (list_to_set func_args).

Definition merge_predecessor_states (label : string)
    (cfg : gmap string (list string))
    (out_state : gmap string (gmap string (gset string)))
    (init_state : gmap string (gset string))
  : option (gmap string (gset string)) :=
  let preds := (filter (λ kv : string * list string, label ∈ kv.2)
                       (map_to_list cfg)).*1 in
  if preds is [] then Some init_state
  else foldl_m (λ in_map pred,
                  out ← out_state !! pred;
                  Some (union_with (λ a b, Some (a ∪ b)) in_map out))
               ∅ preds.

(** The body of the loop of [analyze_block]. *)
Definition analyze_instr (alloc_sites : gmap nat string)
    (state : gmap string (gset string)) (o : obj)
  : option (gmap string (gset string)) :=
  match i_op o.2 with
  | None => Some state
  | Some op =>
      let dest := i_dest o.2 in
      let args := get_args o.2 in
      if bool_decide (op = "alloc") && truthy_str dest then
        d ← dest; site ← alloc_sites !! o.1; Some (<[d := {[site]}]> state)
      else if bool_decide (op ∈ ["id"; "ptradd"]) && truthy_str dest
              && bool_decide (args ≠ []) then
        d ← dest; src ← head args;
        Some (match state !! src with
              | Some locs => <[d := locs]> state
              | None => state
              end)
      else if bool_decide (op ∈ ["load"; "call"]) && truthy_str dest then
        d ← dest; Some (<[d := {[UNKNOWN]}]> state)
      else Some state
  end.

Definition analyze_block (block : list obj) (in_map : gmap string (gset string))
    (alloc_sites : gmap nat string) : option (gmap string (gset string)) :=
  foldl_m (analyze_instr alloc_sites) in_map block.

(** The loop [while worklist] of [alias_analysis] over the deque
    [worklist]; [n] bounds the number of iterations. *)
Fixpoint alias_loop (n : nat) (cfg : gmap string (list string))
    (block_map : gmap string (list obj)) (init_state : gmap string (gset string))
    (alloc_sites : gmap nat string) (worklist : list string)
    (in_state out_state : gmap string (gmap string (gset string)))
  : option (gmap string (gmap string (gset string)) *
            gmap string (gmap string (gset string))) :=
  match worklist with
  | [] => Some (in_state, out_state)
  | label :: worklist =>
      match n with
      | 0 => None
      | S n' =>
          in_map ← merge_predecessor_states label cfg out_state init_state;
          let in_state := <[label := in_map]> in_state in
          old_out ← out_state !! label;
          block ← block_map !! label;
          out_map ← analyze_block block in_map alloc_sites;
          let out_state := <[label := out_map]> out_state in
          worklist ← (if decide (out_map ≠ old_out)
                      then succs ← cfg !! label;
                           Some (worklist ++ filter (λ s, s ∉ worklist) succs)
                      else Some worklist);
          alias_loop n' cfg block_map init_state alloc_sites worklist
                     in_state out_state
      end
  end.

Definition alias_analysis (n : nat) (blocks : list (list obj))
    (cfg : gmap string (list string)) (labels : list string)
    (func_args : list string) (alloc_sites : gmap nat string) :=
  let block_map := dict_zip labels blocks in
  let empty_state : gmap string (gmap string (gset string)) :=
    gset_to_gmap ∅ (list_to_set labels) in
  alias_loop n cfg block_map (initialize_func_args_state func_args) alloc_sites
             labels empty_state empty_state.

Definition update_state_based_on_instr (alloc_sites : gmap nat string)
    (state : gmap string (gset string)) (o : obj)
  : option (gmap string (gset string)) :=
  match i_op o.2 with
  | None => Some state
  | Some op =>
      let dest := i_dest o.2 in
      let args := get_args o.2 in
      if bool_decide (op = "alloc") && truthy_str dest then
        d ← dest; site ← alloc_sites !! o.1; Some (<[d := {[site]}]> state)
      else if bool_decide (op ∈ ["id"; "ptradd"]) && truthy_str dest
              && bool_decide (args ≠ []) then
        d ← dest; src ← head args;
        Some (<[d := default ∅ (state !! src)]> state)
      else if bool_decide (op ∈ ["load"; "call"]) && truthy_str dest then
        d ← dest; Some (<[d := {[UNKNOWN]}]> state)
      else Some state
  end.

(** The alias maps of one block: the state before each instruction. *)
Fixpoint alias_maps_of (alloc_sites : gmap nat string)
    (state : gmap string (gset string)) (block : list obj)
  : option (list (gmap string (gset string))) :=
  match block with
  | [] => Some []
  | o :: rest =>
      state' ← update_state_based_on_instr alloc_sites state o;
      cons state <$> alias_maps_of alloc_sites state' rest
  end.

Definition build_alias_info
    (in_alias : gmap string (gmap string (gset string)))
    (labels : list string) (blocks : list (list obj))
    (alloc_sites : gmap nat string)
  : option (gmap string (list (gmap string (gset string)))) :=
  let block_map := dict_zip labels blocks in
  foldl_m (λ alias_info label,
             block ← block_map !! label;
             maps ← alias_maps_of alloc_sites (default ∅ (in_alias !! label)) block;
             Some (<[label := maps]> alias_info))
          ∅ labels.

Definition pts (alias_map : gmap string (gset string)) (p : string) : gset string :=
  default ∅ (alias_map !! p).

(** The body of the backward loop of [analyze_memory_uses]. *)
Definition memory_use (i : instr) (alias_map : gmap string (gset string))
    (live_set : gset string) : option (gset string) :=
  match i_op i with
  | None => Some live_set
  | Some op =>
      let args := get_args i in
      if decide (op = "ret") then
        Some (match args with
              | ret_var :: _ => live_set ∪ pts alias_map ret_var
              | [] => live_set
              end)
      else if decide (op = "store") then
        p ← head args; Some (live_set ∪ pts alias_map p)
      else if decide (op = "load") then
        p ← head args; Some (live_set ∪ pts alias_map p)
      else if decide (op = "free") then
        p ← head args; Some (live_set ∖ pts alias_map p)
      else if decide (op = "call") then
        Some (foldl (λ live arg, live ∪ pts alias_map arg) live_set args)
      else Some live_set
  end.

(** [for idx in reversed(range(len(block)))]: the pairs (index,
    instruction) from the last to the first. *)
Definition backwards {A} (block : list A) : list (nat * A) :=
  reverse (imap pair block).

Definition analyze_memory_uses (block : list instr) (live_out_set : gset string)
    (alias_maps : list (gmap string (gset string))) : option (gset string) :=
  foldl_m (λ live_set (p : nat * instr),
             alias_map ← alias_maps !! p.1;
             memory_use p.2 alias_map live_set)
          live_out_set (backwards block).

Definition compute_out_set (cfg : gmap string (list string)) (label : string)
    (live_in : gmap string (gset string)) : option (gset string) :=
  foldl_m (λ out_set succ, s ← live_in !! succ; Some (out_set ∪ s))
          ∅ (default [] (cfg !! label)).

(** One round [for label in reversed(labels)] of
    [memory_liveness_analysis]; the flag is [changed]. *)
Definition liveness_round (cfg : gmap string (list string))
    (block_map : gmap string (list instr)) (labels : list string)
    (alias_info : gmap string (list (gmap string (gset string))))
    (live_in live_out : gmap string (gset string))
  : option (gmap string (gset string) * gmap string (gset string) * bool) :=
  foldl_m (λ '(live_in, live_out, changed) label,
             out_set ← compute_out_set cfg label live_in;
             old_in ← live_in !! label;
             block ← block_map !! label;
             maps ← alias_info !! label;
             in_set ← analyze_memory_uses block out_set maps;
             Some (<[label := in_set]> live_in, <[label := out_set]> live_out,
                   if decide (in_set ≠ old_in) then true else changed))
          (live_in, live_out, false) (reverse labels).

(** The loop [while changed]; [n] bounds the number of rounds. *)
Fixpoint liveness_loop (n : nat) (cfg : gmap string (list string))
    (block_map : gmap string (list instr)) (labels : list string)
    (alias_info : gmap string (list (gmap string (gset string))))
    (live_in live_out : gmap string (gset string))
  : option (gmap string (gset string) * gmap string (gset string)) :=
  match n with
  | 0 => None
  | S n' =>
      '(live_in, live_out, changed) ←
        liveness_round cfg block_map labels alias_info live_in live_out;
      if changed : bool
      then liveness_loop n' cfg block_map labels alias_info live_in live_out
      else Some (live_in, live_out)
  end.

Definition memory_liveness_analysis (n : nat) (blocks : list (list instr))
    (cfg : gmap string (list string)) (labels : list string)
    (alias_info : gmap string (list (gmap string (gset string)))) :=
  let empty_sets : gmap string (gset string) := gset_to_gmap ∅ (list_to_set labels) in
  liveness_loop n cfg (dict_zip labels blocks) labels alias_info
                empty_sets empty_sets.

(** [is_dead_store] (both definitions in the file are the same text). *)
Definition is_dead_store (i : instr) (alias_map : gmap string (gset string))
    (live_vars : gset string) : option bool :=
  if has_op i "store" then
    args ← i_args i;
    target ← head args;
    let points_to := pts alias_map target in
    Some (bool_decide (points_to ## live_vars)
          && bool_decide (UNKNOWN ∉ points_to)
          && bool_decide (UNKNOWN ∉ live_vars))
  else Some false.

Definition update_live_vars (i : instr) (alias_map : gmap string (gset string))
    (live_vars : gset string) : gset string :=
  let args := get_args i in
  match args with
  | a :: _ =>
      if has_op i "load" then live_vars ∪ pts alias_map a
      else if has_op i "free" then live_vars ∖ pts alias_map a
      else if has_op i "ret" then live_vars ∪ pts alias_map a
      else if has_op i "call"
           then foldl (λ live arg, live ∪ pts alias_map arg) live_vars args
           else live_vars
  | [] => live_vars
  end.

(** The backward loop over one block in the second definition of
    [remove_dead_stores] (the one in force, as it is the later [def]):
    the result is [new_block], in the order it is appended to. *)
Fixpoint scan_block (items : list (nat * instr))
    (alias_maps : list (gmap string (gset string))) (live_vars : gset string)
  : option (list instr) :=
  match items with
  | [] => Some []
  | (idx, i) :: rest =>
      alias_map ← alias_maps !! idx;
      dead ← is_dead_store i alias_map live_vars;
      if dead : bool then scan_block rest alias_maps live_vars
      else cons i <$> scan_block rest alias_maps
                                 (update_live_vars i alias_map live_vars)
  end.

(** The same loop in the first definition of [remove_dead_stores],
    which the second one replaces when the module is loaded; it also
    drops a store whose alias set equals that of the store kept last. *)
Fixpoint scan_block_first (items : list (nat * instr))
    (alias_maps : list (gmap string (gset string))) (live_vars : gset string)
    (last_store_target : option (gset string)) : option (list instr) :=
  match items with
  | [] => Some []
  | (idx, i) :: rest =>
      let keep last :=
        alias_map ← alias_maps !! idx;
        cons i <$> scan_block_first rest alias_maps
                                    (update_live_vars i alias_map live_vars) last in
      if has_op i "store" then
        args ← i_args i;
        target ← head args;
        alias_map ← alias_maps !! idx;
        let alias_set := pts alias_map target in
        if decide (last_store_target = Some alias_set)
        then scan_block_first rest alias_maps live_vars last_store_target
        else
          dead ← is_dead_store i alias_map live_vars;
          if dead : bool
          then scan_block_first rest alias_maps live_vars last_store_target
          else keep (Some alias_set)
      else keep last_store_target
  end.

(** The same loop as [scan_block], recording for every instruction it
    visits the alias map and the live set it was examined under, and
    whether it was skipped. *)
Record visit := Visit {
  v_instr : instr;
  v_alias_map : gmap string (gset string);
  v_live : gset string;
  v_removed : bool
}.

Fixpoint scan_block_visits (items : list (nat * instr))
    (alias_maps : list (gmap string (gset string))) (live_vars : gset string)
  : option (list visit) :=
  match items with
  | [] => Some []
  | (idx, i) :: rest =>
      alias_map ← alias_maps !! idx;
      dead ← is_dead_store i alias_map live_vars;
      cons (Visit i alias_map live_vars dead)
        <$> scan_block_visits rest alias_maps
              (if dead : bool then live_vars
               else update_live_vars i alias_map live_vars)
  end.

Definition kept (visits : list visit) : list instr :=
  v_instr <$> filter (λ v, v_removed v = false) visits.

Section remove_dead_stores.
(** [scan] is the loop over one block, so that both definitions of
    [remove_dead_stores] can be written once. *)
Variable scan : list (nat * instr) → list (gmap string (gset string)) →
                gset string → option (list instr).

Definition remove_dead_stores_with (f : func)
    (alias_info : gmap string (list (gmap string (gset string))))
    (live_out : gmap string (gset string)) : option func :=
  let blocks := Util.form_blocks (f_instrs f) in
  '(cfg, labels) ← construct_cfg blocks;
  block_map ← foldl_m (λ (block_map : gmap string (list instr)) label,
                         block ← block_map !! label;
                         alias_maps ← alias_info !! label;
                         live_vars ← live_out !! label;
                         new_block ← scan (backwards block) alias_maps live_vars;
                         Some (<[label := reverse new_block]> block_map))
                      (dict_zip labels blocks) labels;
  blocks' ← mapM (λ label, block_map !! label) labels;
  Some (set_instrs f (Util.flatten blocks')).

End remove_dead_stores.

Definition remove_dead_stores := remove_dead_stores_with scan_block.

Definition remove_dead_stores_first :=
  remove_dead_stores_with (λ items maps live, scan_block_first items maps live None).

(** [optimize_function]: the analyses, then the removal; [n] bounds the
    iterations of the two fixpoint loops. *)
Definition analyses (n : nat) (f : func)
  : option (gmap string (list (gmap string (gset string))) *
            gmap string (gset string)) :=
  let objs : list obj := imap pair (f_instrs f) in
  let blocks_obj := Util.form_blocks_by (λ o : obj, i_op o.2) objs in
  let blocks := map (map snd) blocks_obj in
  '(cfg, labels) ← construct_cfg blocks;
  let alloc_sites := collect_alloc_sites objs in
  let func_args := get_func_args f in
  '(in_alias, out_alias) ←
    alias_analysis n blocks_obj cfg labels func_args alloc_sites;
  alias_info ← build_alias_info in_alias labels blocks_obj alloc_sites;
  '(live_in, live_out) ←
    memory_liveness_analysis n blocks cfg labels alias_info;
  Some (alias_info, live_out).

Definition optimize_function (n : nat) (f : func) : option func :=
  '(alias_info, live_out) ← analyses n f;
  remove_dead_stores f alias_info live_out.

End Dse.

(** ** Chaotic iteration, the common shape of the two solvers

    Both worklist loops do the same thing to the pair of dictionaries
    they maintain: the value of [b] on the side the information comes
    from ([near]: [In] when going forward) is the merge of the values on
    the other side ([far]) at the neighbours [src b]; the far value of
    [b] is the transfer of that; and when it changed, the neighbours
    [dst b] are put back on the worklist.  This section states that
    shape once; the solvers are related to it below. *)
Module Chaotic.
Section chaotic.
Context {V : Type} `{EqDecision V}.
Variables (src dst : string → list string).
Variables (merge_fn : list V → V) (T : string → V → option V).

Record state := State {
  work : gset string;
  near : gmap string V;
  far : gmap string V
}.

Definition step (b : string) (s : state) : option state :=
  vals ← mapM (λ x, far s !! x) (src b);
  new ← T b (merge_fn vals);
  old ← far s !! b;
  Some (State ((work s ∖ {[b]})
                 ∪ (if decide (new = old) then ∅ else list_to_set (dst b)))
              (<[b := merge_fn vals]> (near s))
              (<[b := new]> (far s))).

Fixpoint run (pops : list string) (s : state) : option state :=
  match pops with
  | [] => Some s
  | b :: rest =>
      if decide (b ∈ work s) then s' ← step b s; run rest s' else None
  end.

(** [b] satisfies its two equations in the pair [(near, far)]. *)
Definition solved_at (nr fr : gmap string V) (b : string) : Prop :=
  ∃ vals new,
    mapM (λ x, fr !! x) (src b) = Some vals
    ∧ nr !! b = Some (merge_fn vals)
    ∧ T b (merge_fn vals) = Some new
    ∧ fr !! b = Some new.

(** Every bound label that is not on the worklist is solved. *)
Definition solved_off_work (s : state) : Prop :=
  ∀ c, is_Some (far s !! c) → c ∉ work s → solved_at (near s) (far s) c.

(** [fr] solves the far-side equations at every label it binds. *)
Definition solution (fr : gmap string V) : Prop :=
  ∀ b w, fr !! b = Some w →
    ∃ vals, mapM (λ x, fr !! x) (src b) = Some vals
            ∧ T b (merge_fn vals) = Some w.

(** Pointwise order of two dictionaries with the same keys. *)
Definition below (le : V → V → Prop) (f1 f2 : gmap string V) : Prop :=
  ∀ b v, f1 !! b = Some v → ∃ w, f2 !! b = Some w ∧ le v w.

End chaotic.

(** The solver of [dataflow/dataflow.py] in that shape: the near side
    is [In] when going forward and [Out] when going backward. *)
Definition of_wl {V} (fwd : bool) (s : Dataflow.wl_state V) : @state V :=
  if fwd then State (Dataflow.wl_work s) (Dataflow.wl_In s) (Dataflow.wl_Out s)
  else State (Dataflow.wl_work s) (Dataflow.wl_Out s) (Dataflow.wl_In s).

Definition wl_src (cfg : gmap string (list string)) (fwd : bool) (b : string)
  : list string :=
  if fwd then Dataflow.get_predecessor cfg b else default [] (cfg !! b).

Definition wl_dst (cfg : gmap string (list string)) (fwd : bool) (b : string)
  : list string :=
  if fwd then default [] (cfg !! b) else Dataflow.get_predecessor cfg b.

Definition wl_T {V} (block_labels : list string) (blocks : list (list instr))
    (transfer_fn : list instr → V → option V) (b : string) (v : V) : option V :=
  block_index ← py_index b block_labels;
  curr_block ← blocks !! block_index;
  transfer_fn curr_block v.

(** The solver of [loop/dataflow.py] in that shape: [ins] is the near
    side in both directions. *)
Definition of_df {V} (s : LoopDataflow.df_state V) : @state V :=
  State (LoopDataflow.df_work s) (LoopDataflow.df_ins s) (LoopDataflow.df_outs s).

Definition df_src (graph : gmap string GraphNode) (fwd : bool) (b : string)
  : list string :=
  match graph !! b with
  | Some node => elements (if fwd then predecessors node else successors node)
  | None => []
  end.

Definition df_dst (graph : gmap string GraphNode) (fwd : bool) (b : string)
  : list string :=
  match graph !! b with
  | Some node => elements (if fwd then successors node else predecessors node)
  | None => []
  end.

Definition df_T {V} (label2block : gmap string (list instr))
    (transfer_fn : list instr → V → option V) (b : string) (v : V) : option V :=
  block ← label2block !! b; transfer_fn block v.

(** The orders of the three lattices.  Liveness: inclusion of sets.
    Constant propagation: a variable bound on the left is bound on the
    right, to the same value or to ['?'].  Reaching definitions: a
    variable bound on the left is bound on the right to a larger set. *)
Definition cprop_le (m1 m2 : gmap string pyval) : Prop :=
  ∀ x v, m1 !! x = Some v → ∃ w, m2 !! x = Some w ∧ (w = PStr "?" ∨ w = v).

Definition defs_le (m1 m2 : gmap string (gset string)) : Prop :=
  ∀ x s, m1 !! x = Some s → ∃ s', m2 !! x = Some s' ∧ s ⊆ s'.

End Chaotic.

(** Modelled from the spec: the CFG of the module [cfg], which is not
    among the sources.  "Predecessors are the inverse relation": [c] is
    a predecessor of [b] exactly when [b] is a successor of [c]. *)
Definition graph_consistent (graph : gmap string GraphNode) : Prop :=
  ∀ b c,
    (∃ nb, graph !! b = Some nb ∧ c ∈ predecessors nb)
    ↔ (∃ nc, graph !! c = Some nc ∧ b ∈ successors nc).

(** * Example programs *)

(** [a: int = const 1; b: int = add a a;] *)
Definition dce_a : instr := iconst "a" tint (PInt 1).
Definition dce_b : instr := ivalue "add" "b" tint ["a"; "a"].

(** [x: int = const 1; x: int = const 2; print x; x: int = const 3;] *)
Definition ldce_x1 : instr := iconst "x" tint (PInt 1).
Definition ldce_x2 : instr := iconst "x" tint (PInt 2).
Definition ldce_print : instr := ieffect "print" ["x"].
Definition ldce_x3 : instr := iconst "x" tint (PInt 3).

(** [ret; .L: print x;]: a block that ends in [ret] and is followed by
    another block. *)
Definition ret_then_block : list instr := [iret; ilabel "L"; ldce_print].

(** [p = alloc 1; store p 4; store p 5; x = load p;] *)
Definition dse_alloc : instr := ivalue "alloc" "p" (TPtr tint) ["1"].
Definition dse_store4 : instr := ieffect "store" ["p"; "4"].
Definition dse_store5 : instr := ieffect "store" ["p"; "5"].
Definition dse_load : instr := ivalue "load" "x" tint ["p"].
Definition dse_fn : func :=
  Func "main" None None [dse_alloc; dse_store4; dse_store5; dse_load].

(** [a: int = const 4; b: int = const 4; c: int = add a b;] *)
Definition lvn_a : instr := iconst "a" tint (PInt 4).
Definition lvn_b : instr := iconst "b" tint (PInt 4).
Definition lvn_c : instr := ivalue "add" "c" tint ["a"; "b"].


(** A loop [header -> body -> header] with exit [header -> exit]:
    [q = div a b] is in the header, [t = add q q] in the body. *)
Definition licm_div : instr := ivalue "div" "q" tint ["a"; "b"].
Definition licm_add : instr := ivalue "add" "t" tint ["q"; "q"].
Definition licm_instrs : list instr :=
  [iconst "a" tint (PInt 8); iconst "b" tint (PInt 2);
   iconst "c" (TPrim "bool") (PBool true);
   ilabel "header"; licm_div; ibr "c" "body" "exit";
   ilabel "body"; licm_add; ijmp "header";
   ilabel "exit"; ieffect "print" ["q"]; iret].
Definition licm_graph : gmap string GraphNode :=
  {[ "entry" := MkGraphNode ∅ {[ "header" ]};
     "header" := MkGraphNode {[ "entry"; "body" ]} {[ "body"; "exit" ]};
     "body" := MkGraphNode {[ "header" ]} {[ "header" ]};
     "exit" := MkGraphNode {[ "header" ]} ∅ ]}.
Definition licm_label2block : gmap string (list instr) :=
  {[ "entry" := take 3 licm_instrs;
     "header" := take 3 (drop 3 licm_instrs);
     "body" := take 3 (drop 6 licm_instrs);
     "exit" := drop 9 licm_instrs ]}.
Definition licm_dominators : gmap string (gset string) :=
  {[ "entry" := {[ "entry" ]};
     "header" := {[ "entry"; "header" ]};
     "body" := {[ "entry"; "header"; "body" ]};
     "exit" := {[ "entry"; "header"; "exit" ]} ]}.
Definition licm_loop : Licm.natural_loop :=
  Licm.MkLoop "header" {[ "header"; "body" ]}.
Definition licm_invariants : gmap string Licm.invariant :=
  {[ "q" := Licm.MkInv licm_div "header"; "t" := Licm.MkInv licm_add "body" ]}.

(** The same loop with the [div] in the body, which does not dominate
    the exit. *)
Definition licm_div_t : instr := ivalue "div" "t" tint ["a"; "b"].
Definition licm_label2block' : gmap string (list instr) :=
  <[ "body" := [ilabel "body"; licm_div_t; ijmp "header"] ]>
    (<[ "header" := [ilabel "header"; ibr "c" "body" "exit"] ]> licm_label2block).
Definition licm_invariants' : gmap string Licm.invariant :=
  {[ "t" := Licm.MkInv licm_div_t "body" ]}.

(** A function with a loop: [a = const 4; jmp L; L: b = add a a;
    print b; br b L E; E: ret], its blocks, labels and CFG. *)
Definition df_instrs : list instr :=
  [iconst "a" tint (PInt 4); ijmp "L";
   ilabel "L"; ivalue "add" "b" tint ["a"; "a"]; ieffect "print" ["b"];
   ibr "b" "L" "E";
   ilabel "E"; iret].
Definition df_blocks : list (list instr) := Util.form_blocks df_instrs.
Definition df_labels : list string := ["block.00"; "L"; "E"].
Definition df_cfg : gmap string (list string) :=
  {[ "block.00" := ["L"]; "L" := ["L"; "E"]; "E" := [] ]}.
Definition df_work : gset string := list_to_set df_labels.
Definition df_graph : gmap string GraphNode :=
  {[ "block.00" := MkGraphNode ∅ {[ "L" ]};
     "L" := MkGraphNode {[ "block.00"; "L" ]} {[ "L"; "E" ]};
     "E" := MkGraphNode {[ "L" ]} ∅ ]}.
Definition df_label2block : gmap string (list instr) :=
  {[ "block.00" := take 2 df_instrs;
     "L" := take 4 (drop 2 df_instrs);
     "E" := drop 6 df_instrs ]}.

(** The results of the three analyses on the function above. *)
Definition df_cprop_In : gmap string (gmap string pyval) :=
  {[ "block.00" := ∅;
     "L" := {[ "a" := PInt 4; "b" := PStr "?" ]};
     "E" := {[ "a" := PInt 4; "b" := PStr "?" ]} ]}.
Definition df_cprop_Out : gmap string (gmap string pyval) :=
  {[ "block.00" := {[ "a" := PInt 4 ]};
     "L" := {[ "a" := PInt 4; "b" := PStr "?" ]};
     "E" := {[ "a" := PInt 4; "b" := PStr "?" ]} ]}.
Definition df_live_In : gmap string (gset string) :=
  {[ "block.00" := ∅; "L" := {[ "a" ]}; "E" := ∅ ]}.
Definition df_live_Out : gmap string (gset string) :=
  {[ "block.00" := {[ "a" ]}; "L" := {[ "a" ]}; "E" := ∅ ]}.
Definition df_defs_a : gset string := {[ "a: int = const 4;" ]}.
Definition df_defs_b : gset string := {[ "b: int = add a a;" ]}.
Definition df_defs_ins : gmap string (gmap string (gset string)) :=
  {[ "block.00" := ∅;
     "L" := {[ "a" := df_defs_a; "b" := df_defs_b ]};
     "E" := {[ "a" := df_defs_a; "b" := df_defs_b ]} ]}.
Definition df_defs_outs : gmap string (gmap string (gset string)) :=
  {[ "block.00" := {[ "a" := df_defs_a ]};
     "L" := {[ "a" := df_defs_a; "b" := df_defs_b ]};
     "E" := {[ "a" := df_defs_a; "b" := df_defs_b ]} ]}.

(* END EXAMPLES *)

(** * Properties *)

(** ** The block builder *)

Section form_blocks_facts.
Context {A : Type} (op_of : A → option string).

Lemma flatten_form_blocks_from (cur instrs : list A) :
  Util.flatten (Util.form_blocks_from op_of cur instrs) = cur ++ instrs.
Proof.
  unfold Util.flatten. revert cur.
  induction instrs as [|i rest IH]; intros cur; simpl.
  - destruct cur; simpl; by rewrite ?app_nil_r.
  - destruct (op_of i) as [op|].
    + case_bool_decide; simpl; rewrite IH; by rewrite <- ?app_assoc.
    + rewrite concat_app, IH. destruct cur; simpl; by rewrite ?app_nil_r.
Qed.

Lemma form_blocks_from_nonempty (cur instrs : list A) :
  Forall (λ block, block ≠ []) (Util.form_blocks_from op_of cur instrs).
Proof.
  revert cur. induction instrs as [|i rest IH]; intros cur; simpl.
  - destruct cur; by repeat constructor.
  - destruct (op_of i) as [op|].
    + case_bool_decide; [|done].
      constructor; [|done]. by destruct cur.
    + apply Forall_app. split; [|done]. destruct cur; by repeat constructor.
Qed.

End form_blocks_facts.

(** C6. For every instruction list, the blocks of [form_blocks],
    concatenated in order by [flatten], are exactly the instruction list,
    and no block is empty. *)
Theorem form_blocks_partition (instrs : list instr) :
  Util.flatten (Util.form_blocks instrs) = instrs
  ∧ Forall (λ block, block ≠ []) (Util.form_blocks instrs).
Proof.
  split.
  - apply (flatten_form_blocks_from i_op [] instrs).
  - apply form_blocks_from_nonempty.
Qed.

(** ** Global dead code elimination *)

Lemma py_remove_elem_of {A} `{EqDecision A} (x : A) (l : list A) :
  x ∈ l → is_Some (py_remove x l).
Proof.
  induction l as [|y l IH]; [by intros ?%elem_of_nil|].
  intros Hx. simpl. case_decide; [by eexists|].
  apply elem_of_cons in Hx as [?|Hx]; [done|].
  destruct (IH Hx) as [l' ->]. by eexists.
Qed.

Lemma py_remove_length {A} `{EqDecision A} (x : A) (l l' : list A) :
  py_remove x l = Some l' → length l = S (length l').
Proof.
  revert l'. induction l as [|y l IH]; intros l'; simpl; [done|].
  case_decide; [by intros [= ->]|].
  destruct (py_remove x l) as [k|] eqn:E; [|done].
  intros [= <-]. simpl. by rewrite (IH k).
Qed.

Lemma py_remove_filter {A} `{EqDecision A} (P : A → Prop) `{∀ a, Decision (P a)}
    (x : A) (l l' : list A) :
  ¬ P x → py_remove x l = Some l' → filter P l' = filter P l.
Proof.
  intros Hx. revert l'. induction l as [|y l IH]; intros l'; simpl; [done|].
  case_decide as Hxy.
  - intros [= ->]. subst y. by rewrite filter_cons_False.
  - destruct (py_remove x l) as [k|] eqn:E; [|done].
    intros [= <-]. rewrite !filter_cons, (IH k); done.
Qed.

Lemma sweep_is_Some (n : nat) used (pos : nat) (instrs : list instr) c :
  (length instrs ≤ n + pos)%nat → is_Some (GlobalDce.sweep n used pos instrs c).
Proof.
  revert pos instrs c. induction n as [|n IH]; intros pos instrs c Hn.
  - destruct instrs as [|i instrs]; simpl; [by eexists|].
    rewrite lookup_ge_None_2 by (simpl in *; lia). by eexists.
  - simpl. destruct (instrs !! pos) as [i|] eqn:Hi; [|by eexists].
    destruct (i_dest i) as [d|]; [|apply IH; lia].
    case_decide; [apply IH; lia|].
    destruct (py_remove_elem_of i instrs) as [instrs' Hr];
      [by eapply list_elem_of_lookup_2|].
    rewrite Hr. simpl. apply IH.
    apply py_remove_length in Hr. lia.
Qed.

Lemma sweep_shrinks n used pos instrs c instrs' c' :
  GlobalDce.sweep n used pos instrs c = Some (instrs', c') →
  (length instrs' ≤ length instrs)%nat
  ∧ (c' = false → c = false ∨ (length instrs' < length instrs)%nat).
Proof.
  revert pos instrs c. induction n as [|n IH]; intros pos instrs c; simpl.
  - destruct (instrs !! pos); [done|]. intros [= -> ->]. auto.
  - destruct (instrs !! pos) as [i|]; [|intros [= -> ->]; auto].
    destruct (i_dest i) as [d|]; [|apply IH].
    case_decide; [apply IH|].
    destruct (py_remove i instrs) as [k|] eqn:Hr; [|done]. simpl.
    intros [? ?]%IH. apply py_remove_length in Hr. split; [lia|].
    intros _. right. lia.
Qed.

Lemma global_dce_loop_is_Some (n : nat) used (instrs : list instr) :
  (length instrs < n)%nat → is_Some (GlobalDce.global_dce_loop n used instrs).
Proof.
  revert used instrs. induction n as [|n IH]; intros used instrs Hn; [lia|].
  simpl.
  destruct (sweep_is_Some (length instrs) (GlobalDce.collect_used used instrs)
              0 instrs true) as [[instrs' c] Hs]; [lia|].
  rewrite Hs. simpl. destruct c; [by eexists|].
  apply IH. apply sweep_shrinks in Hs as [_ Hs].
  destruct Hs as [|]; [done|done|lia].
Qed.

(** [global_dce] returns on every function. *)
Lemma global_dce_total (f : func) : is_Some (GlobalDce.global_dce f).
Proof.
  unfold GlobalDce.global_dce, GlobalDce.global_dce_instrs.
  destruct (global_dce_loop_is_Some (S (length (f_instrs f))) ∅ (f_instrs f))
    as [l ->]; [lia|]. by eexists.
Qed.

Definition no_dest (i : instr) : Prop := i_dest i = None.

#[global] Instance no_dest_dec i : Decision (no_dest i).
Proof. unfold no_dest. apply _. Defined.

Lemma sweep_keeps_no_dest n used pos instrs c instrs' c' :
  GlobalDce.sweep n used pos instrs c = Some (instrs', c') →
  filter no_dest instrs' = filter no_dest instrs.
Proof.
  revert pos instrs c. induction n as [|n IH]; intros pos instrs c; simpl.
  - destruct (instrs !! pos); [done|]. by intros [= -> ->].
  - destruct (instrs !! pos) as [i|]; [|by intros [= -> ->]].
    destruct (i_dest i) as [d|] eqn:Hd; [|apply IH].
    case_decide; [apply IH|].
    destruct (py_remove i instrs) as [k|] eqn:Hr; [|done]. simpl.
    intros ->%IH. eapply py_remove_filter; [|done].
    unfold no_dest. by rewrite Hd.
Qed.

(** Global dead code elimination keeps every instruction that has no
    destination, in the original order. *)
Lemma global_dce_keeps_no_dest (instrs instrs' : list instr) :
  GlobalDce.global_dce_instrs instrs = Some instrs' →
  filter no_dest instrs' = filter no_dest instrs.
Proof.
  unfold GlobalDce.global_dce_instrs.
  generalize (S (length instrs)) (∅ : gset string). intros n.
  revert instrs. induction n as [|n IH]; intros instrs used; simpl; [done|].
  destruct (GlobalDce.sweep _ _ _ _ _) as [[k c]|] eqn:Hs; [|done]. simpl.
  apply sweep_keeps_no_dest in Hs. destruct c.
  - by intros [= <-].
  - intros ->%IH. done.
Qed.

(** C1. On [a: int = const 1; b: int = add a a;] global dead code
    elimination stops with [a]'s instruction still in the function,
    although [a] is then read nowhere: [used] is never emptied, so the
    name [a] collected in the first round protects the instruction in
    the second. *)
Theorem global_dce_leaves_dead_const :
  GlobalDce.global_dce_instrs [dce_a; dce_b] = Some [dce_a]
  ∧ i_dest dce_a = Some "a"
  ∧ "a" ∉ GlobalDce.collect_used ∅ [dce_a].
Proof. split; [by vm_compute|]. split; [done|]. by vm_compute. Qed.

(** ** Local dead code elimination *)

(** C10. On the block [x = const 1; x = const 2; print x; x = const 3]
    local dead code elimination returns [x = const 2; x = const 3]: the
    [print], which has no destination, is removed.  The indexes kept in
    [last_def] are positions of the list before earlier [pop]s, so the
    second [pop] hits the instruction after the one it was meant for. *)
Theorem local_dce_drops_print :
  LocalDce.local_dce_instrs [ldce_x1; ldce_x2; ldce_print; ldce_x3]
    = Some [ldce_x2; ldce_x3]
  ∧ i_dest ldce_print = None.
Proof. split; [by vm_compute|done]. Qed.

(** ** The CFG builders *)

Lemma successors_of_jmp n labels i last_instr target rest :
  i_op last_instr = Some "jmp" →
  i_labels last_instr = Some (target :: rest) →
  Dataflow.successors_of n labels i last_instr = Some [target].
Proof. intros Hop Hl. unfold Dataflow.successors_of. by rewrite Hop, Hl. Qed.

Lemma successors_of_br n labels i last_instr :
  i_op last_instr = Some "br" →
  Dataflow.successors_of n labels i last_instr = i_labels last_instr.
Proof. intros Hop. unfold Dataflow.successors_of. by rewrite Hop. Qed.

(** Every other last instruction, [ret] included, takes the branch of
    the fall-through. *)
Lemma successors_of_other n labels i last_instr op :
  i_op last_instr = Some op → op ≠ "jmp" → op ≠ "br" →
  Dataflow.successors_of n labels i last_instr
  = if decide (i < n - 1) then l ← labels !! S i; Some [l] else Some [].
Proof.
  intros Hop ??. unfold Dataflow.successors_of. rewrite Hop. simpl.
  by rewrite !decide_False by done.
Qed.

Lemma get_cfg_from_lookup n labels i blocks cfg cfg' :
  NoDup labels →
  Dataflow.get_cfg_from n labels i blocks cfg = Some cfg' →
  (∀ l, (∀ j, j < length blocks → labels !! (i + j) ≠ Some l) →
        cfg' !! l = cfg !! l)
  ∧ (∀ j block l, blocks !! j = Some block → labels !! (i + j) = Some l →
       ∃ last_instr succ,
         last block = Some last_instr
         ∧ Dataflow.successors_of n labels (i + j) last_instr = Some succ
         ∧ cfg' !! l = Some succ).
Proof.
  intros Hnd. revert i cfg.
  induction blocks as [|block rest IH]; intros i cfg; simpl.
  - intros [= ->]. split; [done|]. intros j ?? Hj. by rewrite lookup_nil in Hj.
  - destruct (last block) as [li|] eqn:Hlast; [|done]. simpl.
    destruct (labels !! i) as [curr|] eqn:Hcurr; [|done]. simpl.
    destruct (Dataflow.successors_of n labels i li) as [succ|] eqn:Hs; [|done].
    simpl. intros [IH1 IH2]%IH. split.
    + intros l Hl. rewrite IH1.
      * apply lookup_insert_ne. intros <-.
        apply (Hl 0); [lia|]. by rewrite Nat.add_0_r.
      * intros j Hj. replace (S i + j) with (i + S j) by lia.
        apply Hl. lia.
    + intros [|j] blk l Hblk Hl.
      * rewrite Nat.add_0_r in *. simpl in Hblk.
        injection Hblk as <-. rewrite Hcurr in Hl. injection Hl as <-.
        exists li, succ. split_and!; [done..|].
        rewrite IH1; [by rewrite lookup_insert_eq|].
        intros j _ Hj.
        pose proof (NoDup_lookup _ _ _ _ Hnd Hcurr Hj). lia.
      * simpl in Hblk. replace (i + S j) with (S i + j) in * by lia. eauto.
Qed.

(** What [get_cfg] records for the block at position [i], when no two
    blocks have the same label. *)
Lemma get_cfg_block blocks labels cfg i block l :
  NoDup labels →
  Dataflow.get_cfg blocks labels = Some cfg →
  blocks !! i = Some block → labels !! i = Some l →
  ∃ last_instr succ,
    last block = Some last_instr
    ∧ Dataflow.successors_of (length blocks) labels i last_instr = Some succ
    ∧ cfg !! l = Some succ.
Proof.
  intros Hnd Hcfg Hb Hl.
  destruct (get_cfg_from_lookup _ _ _ _ _ _ Hnd Hcfg) as [_ H].
  by apply (H i block l).
Qed.

(** C2. In [ret; .L: print x;] the first block ends in [ret], and both
    CFG builders give it the successor [L], the next block in program
    order: neither has a case for [ret], which is served by the branch
    of the fall-through. *)
Theorem ret_block_gets_fall_through :
  let blocks := Util.form_blocks ret_then_block in
  blocks = [[iret]; [ilabel "L"; ldce_print]]
  ∧ (labels ← Dataflow.get_block_labels blocks; Dataflow.get_cfg blocks labels)
    = Some {[ "block.00" := ["L"]; "L" := [] ]}
  ∧ Dse.construct_cfg blocks
    = Some ({[ "<bb0>" := ["L"]; "L" := [] ]}, ["<bb0>"; "L"]).
Proof. by vm_compute. Qed.

(** ** Dead-store elimination *)

(** C3. On [p = alloc 1; store p 4; store p 5; x = load p;] dead-store
    elimination returns the function unchanged: the first store stays.
    The load makes the allocation site live and no store ends that, so
    [is_dead_store] is false for both stores.  The first definition of
    [remove_dead_stores], which collapses consecutive stores to one alias
    set, does remove the first store on the same analyses, but the second
    definition replaces it. *)
Theorem dse_keeps_overwritten_store :
  Dse.optimize_function 8 dse_fn = Some dse_fn
  ∧ ('(alias_info, live_out) ← Dse.analyses 8 dse_fn;
     Dse.remove_dead_stores_first dse_fn alias_info live_out)
    = Some (set_instrs dse_fn [dse_alloc; dse_store5; dse_load]).
Proof. by vm_compute. Qed.

(** ** Local value numbering *)

(** C4, as the claim states it, fails: after [lvn_block] the
    instruction defining [b] is still the constant load, not a copy. *)
Lemma lvn_const_not_copied :
  ¬ ∃ out i, Lvn.lvn_block [lvn_a; lvn_b; lvn_c] = Some out
             ∧ out !! 1 = Some i
             ∧ i_op i = Some "id" ∧ i_args i = Some ["a"].
Proof. by intros (out & i & [= <-] & [= <-] & [=] & _). Qed.

(** C4, amended. [lvn_block] returns the block
    [a = const 4; b = const 4; c = add a b] unchanged: a constant load has
    no arguments, so it is not looked up in the value table and gets a
    value number of its own. *)
Theorem lvn_keeps_equal_constants :
  Lvn.lvn_block [lvn_a; lvn_b; lvn_c] = Some [lvn_a; lvn_b; lvn_c].
Proof. by vm_compute. Qed.

Lemma scan_block_kept items alias_maps live_vars :
  Dse.scan_block items alias_maps live_vars
  = (Dse.kept <$> Dse.scan_block_visits items alias_maps live_vars).
Proof.
  revert live_vars. induction items as [|[idx i] rest IH]; intros live; [done|].
  simpl. destruct (alias_maps !! idx) as [alias_map|]; [|done]. simpl.
  destruct (Dse.is_dead_store i alias_map live) as [[]|]; [| |done]; simpl.
  - rewrite IH. by destruct (Dse.scan_block_visits rest alias_maps live).
  - rewrite IH. by destruct (Dse.scan_block_visits rest alias_maps _).
Qed.

Lemma is_dead_store_true i alias_map live_vars :
  Dse.is_dead_store i alias_map live_vars = Some true →
  i_op i = Some "store"
  ∧ ∃ args target, i_args i = Some args ∧ head args = Some target
      ∧ Dse.pts alias_map target ## live_vars
      ∧ (Dse.UNKNOWN ∉ Dse.pts alias_map target)
      ∧ (Dse.UNKNOWN ∉ live_vars).
Proof.
  unfold Dse.is_dead_store, has_op. case_bool_decide as Hop; [|done].
  destruct (i_args i) as [args|]; simpl; [|done].
  destruct (head args) as [target|] eqn:Ht; simpl; [|done].
  intros [= H]. apply andb_true_iff in H as [H H3].
  apply andb_true_iff in H as [H1 H2].
  apply bool_decide_eq_true in H1, H2, H3.
  split; [done|]. exists args, target. by split_and!.
Qed.

Lemma scan_block_visits_removed items alias_maps live_vars visits v :
  Dse.scan_block_visits items alias_maps live_vars = Some visits →
  v ∈ visits →
  Dse.is_dead_store (Dse.v_instr v) (Dse.v_alias_map v) (Dse.v_live v)
  = Some (Dse.v_removed v).
Proof.
  revert live_vars visits.
  induction items as [|[idx i] rest IH]; intros live visits; simpl.
  - intros [= <-]. by intros ?%elem_of_nil.
  - destruct (alias_maps !! idx) as [alias_map|]; [|done]. simpl.
    destruct (Dse.is_dead_store i alias_map live) as [dead|] eqn:Hd; [|done].
    simpl. destruct (Dse.scan_block_visits rest alias_maps _) as [vs|] eqn:Hvs;
      [|done]. simpl. intros [= <-] [->|Hv]%elem_of_cons; [done|].
    by eapply IH.
Qed.

(** C8. In the backward scan of a block by [remove_dead_stores], the
    instructions that reach the output are exactly the visited ones that
    were not skipped, and an instruction is skipped only if it is a
    store whose target's points-to set is disjoint from the live set at
    that moment, with ["unknown"] in neither of the two; so a store whose
    points-to set holds ["unknown"], or one met while the live set holds
    ["unknown"], is kept. *)
Theorem dead_store_needs_known_disjoint
    (block : list instr) (alias_maps : list (gmap string (gset string)))
    (live_out : gset string) (visits : list Dse.visit) :
  Dse.scan_block_visits (Dse.backwards block) alias_maps live_out = Some visits →
  Dse.scan_block (Dse.backwards block) alias_maps live_out
    = Some (Dse.kept visits)
  ∧ (∀ v, v ∈ visits → Dse.v_removed v = true →
       i_op (Dse.v_instr v) = Some "store"
       ∧ ∃ args target,
           i_args (Dse.v_instr v) = Some args ∧ head args = Some target
           ∧ Dse.pts (Dse.v_alias_map v) target ## Dse.v_live v
           ∧ (Dse.UNKNOWN ∉ Dse.pts (Dse.v_alias_map v) target)
           ∧ (Dse.UNKNOWN ∉ Dse.v_live v))
  ∧ (∀ v args target, v ∈ visits →
       i_args (Dse.v_instr v) = Some args → head args = Some target →
       Dse.UNKNOWN ∈ Dse.pts (Dse.v_alias_map v) target
       ∨ Dse.UNKNOWN ∈ Dse.v_live v →
       Dse.v_removed v = false ∧ Dse.v_instr v ∈ Dse.kept visits).
Proof.
  intros Hv. split; [by rewrite scan_block_kept, Hv|]. split.
  - intros v Hin Hr. apply is_dead_store_true.
    rewrite <- Hr. by eapply scan_block_visits_removed.
  - intros v args target Hin Ha Ht Hu.
    assert (Dse.v_removed v = false) as Hr.
    { destruct (Dse.v_removed v) eqn:Hr; [|done].
      pose proof (scan_block_visits_removed _ _ _ _ _ Hv Hin) as Hd.
      rewrite Hr in Hd.
      apply is_dead_store_true in Hd as (_ & a & t & Ha' & Ht' & _ & H1 & H2).
      rewrite Ha in Ha'. injection Ha' as <-.
      rewrite Ht in Ht'. injection Ht' as <-. by destruct Hu. }
    split; [done|]. unfold Dse.kept.
    apply list_elem_of_fmap. exists v. split; [done|].
    by apply list_elem_of_filter.
Qed.

(** The scan of [p = alloc 1; store p 4; store p 5] with nothing live
    at the end of the block skips both stores. *)
Lemma dead_store_needs_known_disjoint_witness :
  let alias_map : gmap string (gset string) := {[ "p" := {[ "alloc_0" ]} ]} in
  let visits :=
    [Dse.Visit dse_store5 alias_map ∅ true;
     Dse.Visit dse_store4 alias_map ∅ true;
     Dse.Visit dse_alloc ∅ ∅ false] in
  Dse.scan_block (Dse.backwards [dse_alloc; dse_store4; dse_store5])
                 [∅; alias_map; alias_map] ∅
  = Some (Dse.kept visits).
Proof.
  intros alias_map visits.
  exact (proj1 (dead_store_needs_known_disjoint
                  [dse_alloc; dse_store4; dse_store5]
                  [∅; alias_map; alias_map] ∅ visits eq_refl)).
Defined.

(** ** The passes only write the instruction list *)

Lemma set_instrs_frame f l : frame (set_instrs f l) = frame f.
Proof. done. Qed.

Lemma set_instrs_instrs f l : f_instrs (set_instrs f l) = l.
Proof. done. Qed.


Lemma lvn_func_frame f f' :
  Lvn.lvn_func f = Some f' → f' = set_instrs f (f_instrs f').
Proof.
  unfold Lvn.lvn_func. destruct (mapM _ _) as [blocks|]; [|done].
  simpl. by intros [= <-].
Qed.




(** [lvn] on a program: the functions of the result are, position by
    position, the input functions with new instruction lists. *)
Lemma lvn_program_frame (prog prog' : list func) :
  Lvn.lvn prog = Some prog' →
  Forall2 (λ f f', f' = set_instrs f (f_instrs f')) prog prog'.
Proof.
  unfold Lvn.lvn. intros H%mapM_Some_1.
  eapply Forall2_impl; [done|]. simpl. intros f f' Hf.
  by apply lvn_func_frame.
Qed.



(** ** Loop-invariant code motion: hoisting a [div] *)

Lemma all_m_true {A} (f : A → option bool) (l : list A) (x : A) :
  all_m f l = Some true → x ∈ l → f x = Some true.
Proof.
  induction l as [|y l IH]; simpl; [by intros _ ?%elem_of_nil|].
  destruct (f y) as [[]|] eqn:Hy; simpl; [|done..].
  intros H [->|Hx]%elem_of_cons; auto.
Qed.

Section licm_facts.
Variables (graph : gmap string GraphNode) (label2block : gmap string (list instr)).
Variable (dominators : gmap string (gset string)).
Variables (loop_invariants : gmap string Licm.invariant) (loop : Licm.natural_loop).

(** The relaxed rule refuses [div] and [print] before it looks at the
    exits. *)
Lemma sat_relaxed_cond_3_unsafe exits li_var e :
  loop_invariants !! li_var = Some e →
  i_op (Licm.inv_instr e) = Some "div" ∨ i_op (Licm.inv_instr e) = Some "print" →
  Licm.sat_relaxed_cond_3 graph label2block exits li_var loop_invariants loop
  = Some false.
Proof.
  intros He Hop. unfold Licm.sat_relaxed_cond_3. rewrite He. simpl.
  rewrite bool_decide_eq_true_2; [done|].
  destruct Hop as [-> | ->]; set_solver.
Qed.

(** A [div] or [print] that [can_move] accepts sits in a block that
    dominates every exit. *)
Lemma can_move_unsafe_dominates exits li_var e lexit :
  loop_invariants !! li_var = Some e →
  i_op (Licm.inv_instr e) = Some "div" ∨ i_op (Licm.inv_instr e) = Some "print" →
  Licm.can_move graph label2block dominators loop_invariants li_var loop exits
  = Some true →
  lexit ∈ exits →
  ∃ d, dominators !! lexit = Some d ∧ Licm.inv_block e ∈ d.
Proof.
  intros He Hop Hmove Hexit. unfold Licm.can_move in Hmove.
  rewrite He in Hmove. simpl in Hmove.
  destruct (Licm.is_var_defined_elsewhere _ _ _ _) as [[]|]; [done| |done].
  simpl in Hmove.
  destruct (Licm.get_loop_blocks_that_use_var _ _ _) as [use_blocks|]; [|done].
  simpl in Hmove.
  destruct (all_m _ (elements use_blocks)) as [[]|]; [|done..].
  simpl in Hmove.
  eapply (all_m_true _ _ lexit) in Hmove; [|by apply elem_of_elements].
  simpl in Hmove.
  destruct (dominators !! lexit) as [d|]; [|done]. simpl in Hmove.
  exists d. split; [done|]. case_decide; [done|].
  by rewrite (sat_relaxed_cond_3_unsafe exits li_var e) in Hmove.
Qed.

(** Every instruction of [movable_instrs] is the recorded instruction
    of a variable that [can_move] accepted. *)
Lemma movable_instrs_can_move exits movable i :
  Licm.movable_instrs graph label2block dominators loop_invariants loop exits
  = Some movable →
  i ∈ movable →
  ∃ li_var e, loop_invariants !! li_var = Some e ∧ Licm.inv_instr e = i
    ∧ Licm.can_move graph label2block dominators loop_invariants li_var loop exits
      = Some true.
Proof.
  unfold Licm.movable_instrs.
  destruct (mapM _ _) as [picked|] eqn:Hp; [|done]. simpl.
  intros [= <-] Hi.
  apply list_elem_of_fmap in Hi as ([i' ok] & -> & Hin).
  apply list_elem_of_filter in Hin as [Hok Hin]. simpl in Hok. subst ok.
  apply mapM_Some_1 in Hp.
  apply list_elem_of_lookup in Hin as [k Hk].
  destruct (Forall2_lookup_r _ _ _ _ _ Hp Hk) as ([li_var e] & Hkv & Hf).
  simpl in Hf.
  destruct (Licm.can_move _ _ _ _ _ _ _) as [ok|] eqn:Hc; [|done].
  simpl in Hf. injection Hf as <- <-.
  exists li_var, e. split_and!; [|done..].
  apply elem_of_map_to_list. by eapply list_elem_of_lookup_2.
Qed.

(** C7. A [div] (or a [print]) that [make_preloop_header] puts into the
    pre-header is the recorded instruction of a loop-invariant variable
    whose block dominates every loop exit; for that variable the relaxed
    rule [sat_relaxed_cond_3] answers no. *)
Theorem unsafe_op_hoisted_only_if_dominating
    (preheader_acc : nat) (instrs pre new_instrs : list instr) (i : instr) :
  Licm.make_preloop_header graph label2block dominators preheader_acc
                           loop_invariants loop instrs
  = Some (pre, new_instrs) →
  i ∈ pre →
  i_op i = Some "div" ∨ i_op i = Some "print" →
  ∃ exits li_var e,
    Licm.get_loop_exits graph loop = Some exits
    ∧ loop_invariants !! li_var = Some e
    ∧ Licm.inv_instr e = i
    ∧ Licm.sat_relaxed_cond_3 graph label2block exits li_var loop_invariants loop
      = Some false
    ∧ ∀ lexit, lexit ∈ exits →
        ∃ d, dominators !! lexit = Some d ∧ Licm.inv_block e ∈ d.
Proof.
  unfold Licm.make_preloop_header. intros H Hi Hop.
  destruct (Licm.get_loop_exits graph loop) as [exits|]; [|done].
  simpl in H.
  destruct (Licm.movable_instrs _ _ _ _ _ _) as [movable|] eqn:Hm; [|done].
  simpl in H.
  destruct (py_index _ _) as [insert_index|]; [|done]. simpl in H.
  injection H as <- <-.
  apply elem_of_cons in Hi as [->|Hi]; [by destruct Hop|].
  destruct (movable_instrs_can_move _ _ _ Hm Hi) as (li_var & e & He & <- & Hc).
  exists exits, li_var, e. split_and!; [done..| |].
  - by apply (sat_relaxed_cond_3_unsafe exits li_var e).
  - intros lexit Hl. by eapply can_move_unsafe_dominates.
Qed.

End licm_facts.

(** In the example loop the [div] of the header, which dominates the
    only exit, is hoisted. *)
Lemma unsafe_op_hoisted_only_if_dominating_witness :
  ∃ exits li_var e,
    Licm.get_loop_exits licm_graph licm_loop = Some exits
    ∧ licm_invariants !! li_var = Some e
    ∧ Licm.inv_instr e = licm_div
    ∧ Licm.sat_relaxed_cond_3 licm_graph licm_label2block exits li_var
                              licm_invariants licm_loop = Some false
    ∧ ∀ lexit, lexit ∈ exits →
        ∃ d, licm_dominators !! lexit = Some d ∧ Licm.inv_block e ∈ d.
Proof.
  eapply (unsafe_op_hoisted_only_if_dominating
            licm_graph licm_label2block licm_dominators licm_invariants
            licm_loop 0 licm_instrs).
  - vm_compute. reflexivity.
  - apply list_elem_of_further, list_elem_of_here.
  - left. reflexivity.
Defined.

(** With the [div] in the body, which does not dominate the exit,
    [can_move] refuses it, while the [add] of the first example, also in
    the body, passes by the relaxed rule. *)
Lemma can_move_examples :
  Licm.can_move licm_graph licm_label2block' licm_dominators licm_invariants'
                "t" licm_loop {[ "header" ]} = Some false
  ∧ Licm.can_move licm_graph licm_label2block licm_dominators licm_invariants
                  "t" licm_loop {[ "header" ]} = Some true
  ∧ Licm.sat_relaxed_cond_3 licm_graph licm_label2block {[ "header" ]} "t"
                            licm_invariants licm_loop = Some true.
Proof. by vm_compute. Qed.

(** ** The worklist solvers: the result does not depend on the pops *)

Lemma mapM_lookup_below {V} (le : V → V → Prop) (f1 f2 : gmap string V)
    (l : list string) (vals svals : list V) :
  Chaotic.below le f1 f2 →
  mapM (λ x, f1 !! x) l = Some vals →
  mapM (λ x, f2 !! x) l = Some svals →
  Forall2 le vals svals.
Proof.
  intros Hb. revert vals svals.
  induction l as [|x l IH]; intros vals svals; simpl.
  - intros [= <-] [= <-]. constructor.
  - destruct (f1 !! x) as [v|] eqn:H1; [|done]. simpl.
    destruct (mapM _ l) as [vs|]; [|done]. simpl. intros [= <-].
    destruct (f2 !! x) as [w|] eqn:H2; [|done]. simpl.
    destruct (mapM (λ x, f2 !! x) l) as [ws|]; [|done]. simpl. intros [= <-].
    constructor; [|by apply IH].
    destruct (Hb x v H1) as (w' & Hw' & Hle). congruence.
Qed.

Lemma mapM_lookup_insert_notin {V} (m : gmap string V) (b : string) (v : V)
    (l : list string) :
  b ∉ l → mapM (λ x, <[b := v]> m !! x) l = mapM (λ x, m !! x) l.
Proof.
  intros Hb. apply Forall_mapM_ext, Forall_forall.
  intros x Hx. apply lookup_insert_ne. by intros ->.
Qed.

Section chaotic_facts.
Context {V : Type} `{EqDecision V}.
Variables (src dst : string → list string).
Variables (merge_fn : list V → V) (T : string → V → option V).
Variable le : V → V → Prop.

Hypothesis adjacent : ∀ b c, c ∈ src b → b ∈ dst c.
Hypothesis le_antisym : ∀ v w, le v w → le w v → v = w.
Hypothesis merge_mono : ∀ l1 l2, Forall2 le l1 l2 → le (merge_fn l1) (merge_fn l2).
Hypothesis T_mono : ∀ b v1 v2 w1 w2,
  le v1 v2 → T b v1 = Some w1 → T b v2 = Some w2 → le w1 w2.

#[local] Abbreviation step := (Chaotic.step src dst merge_fn T).
#[local] Abbreviation run := (Chaotic.run src dst merge_fn T).
#[local] Abbreviation solved_at := (Chaotic.solved_at src merge_fn T).
#[local] Abbreviation solution := (Chaotic.solution src merge_fn T).

#[local] Abbreviation solved_off_work := (Chaotic.solved_off_work src merge_fn T).

Lemma step_far_dom b s s' c :
  step b s = Some s' →
  is_Some (Chaotic.far s' !! c) ↔ is_Some (Chaotic.far s !! c).
Proof.
  unfold Chaotic.step. intros H.
  destruct (mapM _ _) as [vals|]; [|done]. simpl in H.
  destruct (T b _) as [new|]; [|done]. simpl in H.
  destruct (Chaotic.far s !! b) as [old|] eqn:Hold; [|done]. simpl in H.
  injection H as <-. simpl.
  destruct (decide (b = c)) as [<-|Hne].
  - rewrite lookup_insert_eq, Hold. split; by eexists.
  - by rewrite lookup_insert_ne.
Qed.

Lemma step_near_frame b s s' c :
  step b s = Some s' → Chaotic.far s !! c = None →
  Chaotic.near s' !! c = Chaotic.near s !! c.
Proof.
  unfold Chaotic.step. intros H Hc.
  destruct (mapM _ _) as [vals|]; [|done]. simpl in H.
  destruct (T b _) as [new|]; [|done]. simpl in H.
  destruct (Chaotic.far s !! b) as [old|] eqn:Hold; [|done]. simpl in H.
  injection H as <-. simpl.
  apply lookup_insert_ne. intros <-. congruence.
Qed.

Lemma step_solved_off_work b s s' :
  step b s = Some s' → solved_off_work s → solved_off_work s'.
Proof.
  unfold Chaotic.step. intros H Hs.
  destruct (mapM _ _) as [vals|] eqn:Hvals; [|done]. simpl in H.
  destruct (T b _) as [new|] eqn:HT; [|done]. simpl in H.
  destruct (Chaotic.far s !! b) as [old|] eqn:Hold; [|done]. simpl in H.
  injection H as <-. intros c. simpl. intros Hc Hw.
  destruct (decide (new = old)) as [->|Hne].
  - unfold Chaotic.solved_at.
    rewrite (insert_id (Chaotic.far s) b old Hold) in Hc |- *.
    destruct (decide (c = b)) as [->|Hcb].
    + exists vals, old. split_and!; [done| |done..].
      by rewrite lookup_insert_eq.
    + destruct (Hs c Hc) as (vs & nw & ? & ? & ? & ?); [set_solver|].
      exists vs, nw. split_and!; [done| |done..].
      by rewrite lookup_insert_ne.
  - assert (b ∉ src c) as Hb.
    { intros Hin%adjacent. apply Hw. set_solver. }
    unfold Chaotic.solved_at. rewrite mapM_lookup_insert_notin by done.
    destruct (decide (c = b)) as [->|Hcb].
    + exists vals, new. rewrite !lookup_insert_eq. by split_and!.
    + rewrite lookup_insert_ne in Hc by done.
      destruct (Hs c Hc) as (vs & nw & ? & ? & ? & ?); [set_solver|].
      exists vs, nw. rewrite !lookup_insert_ne by done. by split_and!.
Qed.

Lemma step_below b s s' (S : gmap string V) :
  step b s = Some s' → solution S →
  Chaotic.below le (Chaotic.far s) S → Chaotic.below le (Chaotic.far s') S.
Proof.
  unfold Chaotic.step. intros H HS Hb.
  destruct (mapM _ _) as [vals|] eqn:Hvals; [|done]. simpl in H.
  destruct (T b _) as [new|] eqn:HT; [|done]. simpl in H.
  destruct (Chaotic.far s !! b) as [old|] eqn:Hold; [|done]. simpl in H.
  injection H as <-. intros c v. simpl.
  destruct (decide (b = c)) as [<-|Hne].
  - rewrite lookup_insert_eq. intros [= <-].
    destruct (Hb b old Hold) as (w & Hw & _).
    destruct (HS b w Hw) as (svals & Hsv & HTs).
    exists w. split; [done|].
    eapply T_mono; [|done..]. apply merge_mono.
    by eapply mapM_lookup_below.
  - rewrite lookup_insert_ne by done. apply Hb.
Qed.

Lemma run_invariants pops s s' (S : gmap string V) :
  run pops s = Some s' →
  (∀ c, is_Some (Chaotic.far s' !! c) ↔ is_Some (Chaotic.far s !! c))
  ∧ (∀ c, Chaotic.far s !! c = None →
          Chaotic.near s' !! c = Chaotic.near s !! c)
  ∧ (solved_off_work s → solved_off_work s')
  ∧ (solution S → Chaotic.below le (Chaotic.far s) S →
     Chaotic.below le (Chaotic.far s') S).
Proof.
  revert s. induction pops as [|b rest IH]; intros s; simpl.
  - intros [= <-]. done.
  - case_decide; [|done].
    destruct (step b s) as [s1|] eqn:Hstep; [|done]. simpl.
    intros (Hd & Hn & Hso & Hbl)%IH. split_and!.
    + intros c. rewrite Hd. by eapply step_far_dom.
    + intros c Hc. rewrite Hn.
      * by eapply step_near_frame.
      * apply eq_None_not_Some. rewrite (step_far_dom _ _ _ c Hstep).
        by apply eq_None_not_Some.
    + intros ?. by eapply Hso, step_solved_off_work.
    + intros ??. by eapply Hbl, step_below.
Qed.

(** Two complete runs from a state in which every label with a far
    value is on the worklist and every far value is least end in the
    same pair of dictionaries. *)
Lemma run_confluent pops1 pops2 s0 s1 s2 :
  (∀ b, is_Some (Chaotic.far s0 !! b) → b ∈ Chaotic.work s0) →
  (∀ b v w, Chaotic.far s0 !! b = Some v → le v w) →
  run pops1 s0 = Some s1 → Chaotic.work s1 = ∅ →
  run pops2 s0 = Some s2 → Chaotic.work s2 = ∅ →
  Chaotic.far s1 = Chaotic.far s2 ∧ Chaotic.near s1 = Chaotic.near s2.
Proof.
  intros Hw0 Hbot Hr1 He1 Hr2 He2.
  assert (solved_off_work s0) as Hs0.
  { intros c Hc Hn. destruct Hn. by apply Hw0. }
  assert (∀ pops s, run pops s0 = Some s → Chaotic.work s = ∅ →
            solution (Chaotic.far s)) as Hsol.
  { intros pops s Hr He.
    destruct (run_invariants pops s0 s ∅ Hr) as (_ & _ & Hso & _).
    intros b w Hb.
    destruct (Hso Hs0 b) as (vals & new & ? & ? & ? & ?);
      [by eexists|rewrite He; set_solver|].
    exists vals. split; [done|]. congruence. }
  assert (∀ pops pops' s s', run pops s0 = Some s → Chaotic.work s = ∅ →
            run pops' s0 = Some s' →
            Chaotic.below le (Chaotic.far s') (Chaotic.far s)) as Hbel.
  { intros pops pops' s s' Hr He Hr'.
    destruct (run_invariants pops s0 s ∅ Hr) as (Hd & _ & _ & _).
    destruct (run_invariants pops' s0 s' (Chaotic.far s) Hr')
      as (_ & _ & _ & Hb).
    apply Hb; [by eapply Hsol|].
    intros b v Hv. destruct (proj2 (Hd b)) as [w Hw]; [by eexists|].
    exists w. split; [done|]. by eapply Hbot. }
  assert (Chaotic.far s1 = Chaotic.far s2) as Hfar.
  { apply map_eq. intros b.
    pose proof (Hbel pops2 pops1 s2 s1 Hr2 He2 Hr1) as H12.
    pose proof (Hbel pops1 pops2 s1 s2 Hr1 He1 Hr2) as H21.
    destruct (Chaotic.far s1 !! b) as [v|] eqn:E1.
    - destruct (H12 b v E1) as (w & Hw & Hle). rewrite Hw. f_equal.
      destruct (H21 b w Hw) as (v' & Hv' & Hle'). 
      assert (v' = v) as -> by congruence. by apply le_antisym.
    - destruct (Chaotic.far s2 !! b) as [w|] eqn:E2; [|done].
      destruct (H21 b w E2) as (v' & Hv' & _). congruence. }
  split; [done|]. apply map_eq. intros b.
  destruct (run_invariants pops1 s0 s1 ∅ Hr1) as (Hd1 & Hn1 & Hso1 & _).
  destruct (run_invariants pops2 s0 s2 ∅ Hr2) as (Hd2 & Hn2 & Hso2 & _).
  destruct (Chaotic.far s0 !! b) as [v|] eqn:E0.
  - destruct (Hso1 Hs0 b) as (vals1 & n1 & Hv1 & -> & _);
      [apply Hd1; by eexists|rewrite He1; set_solver|].
    destruct (Hso2 Hs0 b) as (vals2 & n2 & Hv2 & -> & _);
      [apply Hd2; by eexists|rewrite He2; set_solver|].
    rewrite Hfar in Hv1. congruence.
  - by rewrite Hn1, Hn2.
Qed.

End chaotic_facts.

(** *** The two solvers are chaotic iterations *)

Lemma elem_of_get_predecessor (cfg : gmap string (list string)) (b c : string) :
  c ∈ Dataflow.get_predecessor cfg b ↔ ∃ succ, cfg !! c = Some succ ∧ b ∈ succ.
Proof.
  unfold Dataflow.get_predecessor. rewrite list_elem_of_fmap. split.
  - intros ([c' succ] & -> & [Hb Hin%elem_of_map_to_list]%list_elem_of_filter).
    by exists succ.
  - intros (succ & Hc & Hb). exists (c, succ). split; [done|].
    apply list_elem_of_filter. split; [done|]. by apply elem_of_map_to_list.
Qed.

Lemma wl_adjacent cfg fwd b c :
  c ∈ Chaotic.wl_src cfg fwd b → b ∈ Chaotic.wl_dst cfg fwd c.
Proof.
  unfold Chaotic.wl_src, Chaotic.wl_dst. destruct fwd.
  - intros (succ & -> & Hb)%elem_of_get_predecessor. done.
  - intros Hc. apply elem_of_get_predecessor.
    destruct (cfg !! b) as [succ|]; [by exists succ|]. by apply elem_of_nil in Hc.
Qed.

Lemma df_adjacent graph fwd b c :
  graph_consistent graph →
  c ∈ Chaotic.df_src graph fwd b → b ∈ Chaotic.df_dst graph fwd c.
Proof.
  unfold Chaotic.df_src, Chaotic.df_dst. intros Hg.
  destruct (graph !! b) as [nb|] eqn:Hb; [|by intros ?%elem_of_nil].
  intros Hc%elem_of_elements. destruct fwd.
  - destruct (proj1 (Hg b c)) as (nc & -> & Hs); [by exists nb|].
    by apply elem_of_elements.
  - destruct (proj2 (Hg c b)) as (nc & -> & Hs); [by exists nb|].
    by apply elem_of_elements.
Qed.

Section solvers_as_chaotic.
Context {V : Type} `{EqDecision V}.
Variables (transfer_fn : list instr → V → option V) (merge_fn : list V → V).

Lemma worklist_step_chaotic cfg block_labels blocks fwd b s s' :
  Dataflow.worklist_step cfg block_labels blocks transfer_fn merge_fn fwd b s
  = Some s' →
  Chaotic.step (Chaotic.wl_src cfg fwd) (Chaotic.wl_dst cfg fwd) merge_fn
               (Chaotic.wl_T block_labels blocks transfer_fn) b
               (Chaotic.of_wl fwd s)
  = Some (Chaotic.of_wl fwd s').
Proof.
  unfold Dataflow.worklist_step, Chaotic.step, Chaotic.wl_T,
         Chaotic.wl_src, Chaotic.wl_dst, Chaotic.of_wl.
  destruct fwd; simpl.
  - destruct (mapM _ _) as [outs|]; [|done]. simpl.
    destruct (py_index b block_labels) as [idx|]; [|done]. simpl.
    destruct (blocks !! idx) as [blk|]; [|done]. simpl.
    destruct (Dataflow.wl_Out s !! b) as [old|];
      [|by destruct (transfer_fn _ _)]. simpl.
    destruct (transfer_fn blk (merge_fn outs)) as [new|]; [|done]. simpl.
    destruct (decide (new ≠ old)) as [Hne|Heq].
    + destruct (cfg !! b) as [succ|]; [|done]. simpl. intros [= <-]. simpl.
      by rewrite decide_False by done.
    + intros [= <-]. simpl. apply dec_stable in Heq. subst new.
      rewrite decide_True by done. by rewrite (right_id_L ∅ (∪)).
  - destruct (cfg !! b) as [succ|]; [|done]. simpl.
    destruct (mapM _ _) as [ins|]; [|done]. simpl.
    destruct (py_index b block_labels) as [idx|]; [|done]. simpl.
    destruct (blocks !! idx) as [blk|]; [|done]. simpl.
    destruct (Dataflow.wl_In s !! b) as [old|];
      [|by destruct (transfer_fn _ _)]. simpl.
    destruct (transfer_fn blk (merge_fn ins)) as [new|]; [|done]. simpl.
    destruct (decide (new ≠ old)) as [Hne|Heq].
    + intros [= <-]. simpl. by rewrite decide_False by done.
    + intros [= <-]. simpl. apply dec_stable in Heq. subst new.
      rewrite decide_True by done. by rewrite (right_id_L ∅ (∪)).
Qed.

Lemma worklist_run_chaotic cfg block_labels blocks fwd pops s s' :
  Dataflow.worklist_run cfg block_labels blocks transfer_fn merge_fn fwd pops s
  = Some s' →
  Chaotic.run (Chaotic.wl_src cfg fwd) (Chaotic.wl_dst cfg fwd) merge_fn
              (Chaotic.wl_T block_labels blocks transfer_fn) pops
              (Chaotic.of_wl fwd s)
  = Some (Chaotic.of_wl fwd s').
Proof.
  revert s. induction pops as [|b rest IH]; intros s; simpl.
  - by intros [= <-].
  - assert (Chaotic.work (Chaotic.of_wl fwd s) = Dataflow.wl_work s) as ->
      by by destruct fwd.
    case_decide; [|done].
    destruct (Dataflow.worklist_step _ _ _ _ _ _ _ _) as [s1|] eqn:Hs; [|done].
    simpl. rewrite (worklist_step_chaotic _ _ _ _ _ _ _ Hs). simpl. apply IH.
Qed.

Lemma df_step_chaotic graph label2block fwd b s s' :
  LoopDataflow.df_step graph label2block fwd merge_fn transfer_fn b s = Some s' →
  Chaotic.step (Chaotic.df_src graph fwd) (Chaotic.df_dst graph fwd) merge_fn
               (Chaotic.df_T label2block transfer_fn) b (Chaotic.of_df s)
  = Some (Chaotic.of_df s').
Proof.
  unfold LoopDataflow.df_step, Chaotic.step, Chaotic.df_T,
         Chaotic.df_src, Chaotic.df_dst, Chaotic.of_df. simpl.
  destruct (graph !! b) as [node|]; [|done]. simpl.
  destruct (mapM _ _) as [vals|]; [|done]. simpl.
  destruct (label2block !! b) as [blk|]; [|done]. simpl.
  destruct (transfer_fn blk (merge_fn vals)) as [new|]; [|done]. simpl.
  destruct (LoopDataflow.df_outs s !! b) as [old|] eqn:Hold; [|done]. simpl.
  destruct (decide (old ≠ new)) as [Hne|Heq].
  - intros [= <-]. simpl. rewrite decide_False by done.
    do 2 f_equal. f_equal. apply list_to_set_elements_L.
  - intros [= <-]. simpl. apply dec_stable in Heq. subst new.
    rewrite decide_True by done.
    rewrite (right_id_L ∅ (∪)), (insert_id _ _ _ Hold). done.
Qed.

Lemma df_run_chaotic graph label2block fwd pops s s' :
  LoopDataflow.df_run graph label2block fwd merge_fn transfer_fn pops s = Some s' →
  Chaotic.run (Chaotic.df_src graph fwd) (Chaotic.df_dst graph fwd) merge_fn
              (Chaotic.df_T label2block transfer_fn) pops (Chaotic.of_df s)
  = Some (Chaotic.of_df s').
Proof.
  revert s. induction pops as [|b rest IH]; intros s; simpl.
  - by intros [= <-].
  - case_decide; [|done].
    destruct (LoopDataflow.df_step _ _ _ _ _ _ _) as [s1|] eqn:Hs; [|done].
    simpl. rewrite (df_step_chaotic _ _ _ _ _ _ Hs). simpl. apply IH.
Qed.

End solvers_as_chaotic.

(** *** Uniqueness of the result, for any monotone instance *)

Section monotone_instance.
Context {V : Type} `{EqDecision V}.
Variables (le : V → V → Prop) (init : V).
Variables (transfer_fn : list instr → V → option V) (merge_fn : list V → V).

Hypothesis le_antisym : ∀ v w, le v w → le w v → v = w.
Hypothesis init_least : ∀ w, le init w.
Hypothesis merge_mono : ∀ l1 l2, Forall2 le l1 l2 → le (merge_fn l1) (merge_fn l2).
Hypothesis transfer_mono : ∀ block v1 v2 w1 w2,
  le v1 v2 → transfer_fn block v1 = Some w1 → transfer_fn block v2 = Some w2 →
  le w1 w2.

(** The solver of [dataflow/dataflow.py], started as [run_df] starts
    it: all of [W] on the worklist, [In] and [Out] bound to the initial
    value on [W]. *)
Lemma worklist_algorithm_unique cfg block_labels blocks fwd (W : gset string)
    pops1 pops2 r1 r2 :
  let s0 := Dataflow.WL W (gset_to_gmap init W) (gset_to_gmap init W) in
  Dataflow.worklist_algorithm cfg block_labels blocks transfer_fn merge_fn
                              fwd pops1 s0 = Some r1 →
  Dataflow.worklist_algorithm cfg block_labels blocks transfer_fn merge_fn
                              fwd pops2 s0 = Some r2 →
  r1 = r2.
Proof.
  intros s0. unfold Dataflow.worklist_algorithm.
  destruct (Dataflow.worklist_run _ _ _ _ _ _ pops1 _) as [s1|] eqn:H1; [|done].
  destruct (Dataflow.worklist_run _ _ _ _ _ _ pops2 _) as [s2|] eqn:H2; [|done].
  simpl. case_decide as He1; [|done]. case_decide as He2; [|done].
  intros [= <-] [= <-].
  apply worklist_run_chaotic in H1, H2.
  destruct (run_confluent (Chaotic.wl_src cfg fwd) (Chaotic.wl_dst cfg fwd)
              merge_fn (Chaotic.wl_T block_labels blocks transfer_fn) le
              (wl_adjacent cfg fwd) le_antisym merge_mono) with
    (pops1 := pops1) (pops2 := pops2) (s0 := Chaotic.of_wl fwd s0)
    (s1 := Chaotic.of_wl fwd s1) (s2 := Chaotic.of_wl fwd s2) as [Hfar Hnear];
    try done.
  - intros b v1 v2 w1 w2 Hle. unfold Chaotic.wl_T.
    destruct (py_index b block_labels) as [idx|]; [|done]. simpl.
    destruct (blocks !! idx) as [blk|]; [|done]. simpl.
    by apply transfer_mono.
  - intros b. destruct fwd; simpl; intros [v [? _]%lookup_gset_to_gmap_Some]; done.
  - intros b v w. destruct fwd; simpl;
      intros [_ <-]%lookup_gset_to_gmap_Some; apply init_least.
  - by destruct fwd.
  - by destruct fwd.
  - destruct fwd; simpl in *; congruence.
Qed.

(** The solver of [loop/dataflow.py], on a graph whose predecessor sets
    are the inverse of its successor sets. *)
Lemma data_flow_analysis_unique graph label2block fwd pops1 pops2 r1 r2 :
  graph_consistent graph →
  LoopDataflow.data_flow_analysis graph label2block fwd init merge_fn
                                  transfer_fn pops1 = Some r1 →
  LoopDataflow.data_flow_analysis graph label2block fwd init merge_fn
                                  transfer_fn pops2 = Some r2 →
  r1 = r2.
Proof.
  intros Hg. unfold LoopDataflow.data_flow_analysis.
  destruct (LoopDataflow.df_run _ _ _ _ _ pops1 _) as [s1|] eqn:H1; [|done].
  destruct (LoopDataflow.df_run _ _ _ _ _ pops2 _) as [s2|] eqn:H2; [|done].
  simpl. case_decide as He1; [|done]. case_decide as He2; [|done].
  intros [= <-] [= <-].
  apply df_run_chaotic in H1, H2.
  destruct (run_confluent (Chaotic.df_src graph fwd) (Chaotic.df_dst graph fwd)
              merge_fn (Chaotic.df_T label2block transfer_fn) le
              (λ b c, df_adjacent graph fwd b c Hg) le_antisym merge_mono) with
    (pops1 := pops1) (pops2 := pops2)
    (s0 := Chaotic.of_df (LoopDataflow.df_init graph init))
    (s1 := Chaotic.of_df s1) (s2 := Chaotic.of_df s2) as [Hfar Hnear];
    try done.
  - intros b v1 v2 w1 w2 Hle. unfold Chaotic.df_T.
    destruct (label2block !! b) as [blk|]; [|done]. simpl.
    by apply transfer_mono.
  - intros b. simpl. intros [v [? _]%lookup_gset_to_gmap_Some]. done.
  - intros b v w. simpl. intros [_ <-]%lookup_gset_to_gmap_Some.
    apply init_least.
  - simpl in *. destruct fwd; congruence.
Qed.

End monotone_instance.

(** *** Liveness is a monotone instance *)

Lemma live_le_antisym (v w : gset string) : v ⊆ w → w ⊆ v → v = w.
Proof. set_solver. Qed.

Lemma union_mono (l1 l2 : list (gset string)) :
  Forall2 (⊆) l1 l2 → Dataflow.union l1 ⊆ Dataflow.union l2.
Proof.
  unfold Dataflow.union. induction 1 as [|x y l1 l2 Hxy _ IH]; simpl; set_solver.
Qed.

Lemma live_func_mono block (v1 v2 w1 w2 : gset string) :
  v1 ⊆ v2 → Dataflow.live_func block v1 = Some w1 →
  Dataflow.live_func block v2 = Some w2 → w1 ⊆ w2.
Proof.
  unfold Dataflow.live_func. intros Hv [= <-] [= <-].
  induction block as [|i block IH]; simpl; [done|].
  destruct (i_dest i); set_solver.
Qed.

(** *** Constant propagation is a monotone instance *)

Lemma cprop_le_antisym (m1 m2 : gmap string pyval) :
  Chaotic.cprop_le m1 m2 → Chaotic.cprop_le m2 m1 → m1 = m2.
Proof.
  intros H12 H21. apply map_eq. intros x.
  destruct (m1 !! x) as [v|] eqn:E1.
  - destruct (H12 x v E1) as (w & Hw & Hvw). rewrite Hw. f_equal.
    destruct (H21 x w Hw) as (v' & Hv' & Hwv).
    assert (v' = v) as -> by congruence.
    destruct Hvw as [-> | ->]; [|done]. by destruct Hwv as [-> | ->].
  - destruct (m2 !! x) as [w|] eqn:E2; [|done].
    destruct (H21 x w E2) as (v' & Hv' & _). congruence.
Qed.

Lemma cprop_le_empty (m : gmap string pyval) : Chaotic.cprop_le ∅ m.
Proof. intros x v. by rewrite lookup_empty. Qed.

Lemma cprop_join_mono (a1 a2 d1 d2 : gmap string pyval) :
  Chaotic.cprop_le a1 a2 → Chaotic.cprop_le d1 d2 →
  Chaotic.cprop_le (Dataflow.cprop_join a1 d1) (Dataflow.cprop_join a2 d2).
Proof.
  intros Ha Hd x v. unfold Dataflow.cprop_join. rewrite !lookup_union_with.
  destruct (a1 !! x) as [va|] eqn:Ea1; destruct (d1 !! x) as [vd|] eqn:Ed1;
    simpl; [| | |done].
  - destruct (Ha x va Ea1) as (wa & -> & Hwa).
    destruct (Hd x vd Ed1) as (wd & -> & Hwd). simpl.
    intros [= <-]. eexists. split; [done|].
    repeat case_decide; naive_solver.
  - destruct (Ha x va Ea1) as (wa & -> & Hwa). intros [= <-].
    destruct (d2 !! x) as [wd|]; simpl; eexists; (split; [done|]);
      repeat case_decide; naive_solver.
  - destruct (Hd x vd Ed1) as (wd & -> & Hwd). intros [= <-].
    destruct (a2 !! x) as [wa|]; simpl; eexists; (split; [done|]);
      repeat case_decide; naive_solver.
Qed.

Lemma cprop_merge_mono (l1 l2 : list (gmap string pyval)) :
  Forall2 Chaotic.cprop_le l1 l2 →
  Chaotic.cprop_le (Dataflow.cprop_merge l1) (Dataflow.cprop_merge l2).
Proof.
  unfold Dataflow.cprop_merge.
  assert (Chaotic.cprop_le ∅ ∅) as H0 by apply cprop_le_empty.
  revert H0. generalize (∅ : gmap string pyval) at 1 3.
  generalize (∅ : gmap string pyval).
  intros a2 a1 Ha H. revert a1 a2 Ha.
  induction H as [|d1 d2 l1 l2 Hd _ IH]; intros a1 a2 Ha; simpl; [done|].
  apply IH. by apply cprop_join_mono.
Qed.

Lemma cprop_le_insert (m1 m2 : gmap string pyval) x v :
  Chaotic.cprop_le m1 m2 → Chaotic.cprop_le (<[x := v]> m1) (<[x := v]> m2).
Proof.
  intros H y w. destruct (decide (x = y)) as [<-|Hne].
  - rewrite !lookup_insert_eq. intros [= <-]. eauto.
  - rewrite !lookup_insert_ne by done. apply H.
Qed.

Lemma foldl_m_mono {A B} (R : B → B → Prop) (f : B → A → option B) (l : list A) :
  (∀ b1 b2 a c1 c2, R b1 b2 → f b1 a = Some c1 → f b2 a = Some c2 → R c1 c2) →
  ∀ b1 b2 c1 c2, R b1 b2 →
    foldl_m f b1 l = Some c1 → foldl_m f b2 l = Some c2 → R c1 c2.
Proof.
  intros Hf. induction l as [|a l IH]; intros b1 b2 c1 c2 Hb; simpl.
  - by intros [= <-] [= <-].
  - destruct (f b1 a) as [d1|] eqn:E1; [|done].
    destruct (f b2 a) as [d2|] eqn:E2; [|done]. simpl.
    apply IH. by eapply Hf.
Qed.

Lemma cprop_instr_mono (v1 v2 : gmap string pyval) i w1 w2 :
  Chaotic.cprop_le v1 v2 → Dataflow.cprop_instr v1 i = Some w1 →
  Dataflow.cprop_instr v2 i = Some w2 → Chaotic.cprop_le w1 w2.
Proof.
  unfold Dataflow.cprop_instr. intros Hv.
  destruct (i_dest i) as [d|]; [|by intros [= <-] [= <-]].
  case_decide; [|by intros [= <-] [= <-]].
  case_decide.
  - destruct (i_value i) as [c|]; [|done]. simpl.
    intros [= <-] [= <-]. by apply cprop_le_insert.
  - intros [= <-] [= <-]. by apply cprop_le_insert.
Qed.

Lemma cprop_func_mono block (v1 v2 w1 w2 : gmap string pyval) :
  Chaotic.cprop_le v1 v2 → Dataflow.cprop_func block v1 = Some w1 →
  Dataflow.cprop_func block v2 = Some w2 → Chaotic.cprop_le w1 w2.
Proof.
  unfold Dataflow.cprop_func. apply foldl_m_mono.
  intros b1 b2 a c1 c2. apply cprop_instr_mono.
Qed.

(** *** Reaching definitions is a monotone instance *)

Lemma defs_le_antisym (m1 m2 : gmap string (gset string)) :
  Chaotic.defs_le m1 m2 → Chaotic.defs_le m2 m1 → m1 = m2.
Proof.
  intros H12 H21. apply map_eq. intros x.
  destruct (m1 !! x) as [v|] eqn:E1.
  - destruct (H12 x v E1) as (w & Hw & Hvw). rewrite Hw. f_equal.
    destruct (H21 x w Hw) as (v' & Hv' & Hwv).
    assert (v' = v) as -> by congruence. set_solver.
  - destruct (m2 !! x) as [w|] eqn:E2; [|done].
    destruct (H21 x w E2) as (v' & Hv' & _). congruence.
Qed.

Lemma defs_le_empty (m : gmap string (gset string)) : Chaotic.defs_le ∅ m.
Proof. intros x v. by rewrite lookup_empty. Qed.

Lemma merge_dicts_mono (l1 l2 : list (gmap string (gset string))) :
  Forall2 Chaotic.defs_le l1 l2 →
  Chaotic.defs_le (LoopDataflow.merge_dicts l1) (LoopDataflow.merge_dicts l2).
Proof.
  unfold LoopDataflow.merge_dicts.
  induction 1 as [|d1 d2 l1 l2 Hd _ IH]; simpl; [apply defs_le_empty|].
  intros x s. rewrite !lookup_union_with.
  destruct (d1 !! x) as [s1|] eqn:E1;
    destruct (foldr _ _ l1 !! x) as [r1|] eqn:Er1; simpl; [| | |done].
  - destruct (Hd x s1 E1) as (s2 & -> & ?).
    destruct (IH x r1 Er1) as (r2 & -> & ?). simpl.
    intros [= <-]. eexists. split; [done|]. set_solver.
  - destruct (Hd x s1 E1) as (s2 & -> & ?). intros [= <-].
    destruct (foldr _ _ l2 !! x); simpl; eexists; (split; [done|]); set_solver.
  - destruct (IH x r1 Er1) as (r2 & -> & ?). intros [= <-].
    destruct (d2 !! x); simpl; eexists; (split; [done|]); set_solver.
Qed.

Lemma reaching_defs_mono block (v1 v2 w1 w2 : gmap string (gset string)) :
  Chaotic.defs_le v1 v2 → LoopDataflow.reaching_defs block v1 = Some w1 →
  LoopDataflow.reaching_defs block v2 = Some w2 → Chaotic.defs_le w1 w2.
Proof.
  unfold LoopDataflow.reaching_defs. intros Hv.
  destruct (mapM _ _) as [gen|]; [|done]. simpl.
  intros [= <-] [= <-] x s. rewrite !lookup_union.
  destruct (list_to_map gen !! x) as [g|]; simpl.
  - rewrite !union_Some_l. intros [= <-]. by exists g.
  - destruct (v1 !! x) as [s1|] eqn:E1; [|done]. simpl. intros [= <-].
    destruct (Hv x s1 E1) as (s2 & -> & ?). by exists s2.
Qed.

(** *** The three analyses: one result, whatever the pops *)

(** Liveness with the solver of [dataflow/dataflow.py]: two complete
    runs on the same CFG, whatever labels [worklist.pop()] returns,
    end with the same [In] and [Out]. *)
Theorem liveness_result_unique
    (cfg : gmap string (list string)) (block_labels : list string)
    (blocks : list (list instr)) (W : gset string)
    (pops1 pops2 : list string)
    (r1 r2 : gmap string (gset string) * gmap string (gset string)) :
  Dataflow.worklist_algorithm cfg block_labels blocks
    Dataflow.live_func Dataflow.union false pops1
    (Dataflow.WL W (gset_to_gmap ∅ W) (gset_to_gmap ∅ W)) = Some r1 →
  Dataflow.worklist_algorithm cfg block_labels blocks
    Dataflow.live_func Dataflow.union false pops2
    (Dataflow.WL W (gset_to_gmap ∅ W) (gset_to_gmap ∅ W)) = Some r2 →
  r1 = r2.
Proof.
  apply (worklist_algorithm_unique (⊆) ∅ Dataflow.live_func Dataflow.union).
  - apply live_le_antisym.
  - set_solver.
  - apply union_mono.
  - apply live_func_mono.
Qed.

Lemma liveness_result_unique_witness :
  ∃ r,
    Dataflow.worklist_algorithm df_cfg df_labels df_blocks
      Dataflow.live_func Dataflow.union false ["E"; "L"; "block.00"; "L"]
      (Dataflow.WL df_work (gset_to_gmap ∅ df_work) (gset_to_gmap ∅ df_work))
    = Some r
    ∧ Dataflow.worklist_algorithm df_cfg df_labels df_blocks
        Dataflow.live_func Dataflow.union false
        ["block.00"; "L"; "E"; "L"; "block.00"]
        (Dataflow.WL df_work (gset_to_gmap ∅ df_work) (gset_to_gmap ∅ df_work))
      = Some r.
Proof.
  destruct (Dataflow.worklist_algorithm df_cfg df_labels df_blocks
              Dataflow.live_func Dataflow.union false
              ["E"; "L"; "block.00"; "L"] _) as [r1|] eqn:H1;
    [|by vm_compute in H1].
  destruct (Dataflow.worklist_algorithm df_cfg df_labels df_blocks
              Dataflow.live_func Dataflow.union false
              ["block.00"; "L"; "E"; "L"; "block.00"] _) as [r2|] eqn:H2;
    [|by vm_compute in H2].
  exists r1. split; [done|]. f_equal. symmetry.
  exact (liveness_result_unique _ _ _ _ _ _ _ _ H1 H2).
Defined.

(** Constant propagation with the same solver, going forward. *)
Theorem cprop_result_unique
    (cfg : gmap string (list string)) (block_labels : list string)
    (blocks : list (list instr)) (W : gset string)
    (pops1 pops2 : list string)
    (r1 r2 : gmap string (gmap string pyval) * gmap string (gmap string pyval)) :
  Dataflow.worklist_algorithm cfg block_labels blocks
    Dataflow.cprop_func Dataflow.cprop_merge true pops1
    (Dataflow.WL W (gset_to_gmap ∅ W) (gset_to_gmap ∅ W)) = Some r1 →
  Dataflow.worklist_algorithm cfg block_labels blocks
    Dataflow.cprop_func Dataflow.cprop_merge true pops2
    (Dataflow.WL W (gset_to_gmap ∅ W) (gset_to_gmap ∅ W)) = Some r2 →
  r1 = r2.
Proof.
  apply (worklist_algorithm_unique Chaotic.cprop_le ∅
           Dataflow.cprop_func Dataflow.cprop_merge).
  - apply cprop_le_antisym.
  - apply cprop_le_empty.
  - apply cprop_merge_mono.
  - apply cprop_func_mono.
Qed.

Lemma cprop_result_unique_witness :
  ∃ r,
    Dataflow.worklist_algorithm df_cfg df_labels df_blocks
      Dataflow.cprop_func Dataflow.cprop_merge true
      ["E"; "L"; "block.00"; "L"; "E"; "L"]
      (Dataflow.WL df_work (gset_to_gmap ∅ df_work) (gset_to_gmap ∅ df_work))
    = Some r
    ∧ Dataflow.worklist_algorithm df_cfg df_labels df_blocks
        Dataflow.cprop_func Dataflow.cprop_merge true
        ["block.00"; "L"; "E"; "L"]
        (Dataflow.WL df_work (gset_to_gmap ∅ df_work) (gset_to_gmap ∅ df_work))
      = Some r.
Proof.
  destruct (Dataflow.worklist_algorithm df_cfg df_labels df_blocks
              Dataflow.cprop_func Dataflow.cprop_merge true
              ["E"; "L"; "block.00"; "L"; "E"; "L"] _) as [r1|] eqn:H1;
    [|by vm_compute in H1].
  destruct (Dataflow.worklist_algorithm df_cfg df_labels df_blocks
              Dataflow.cprop_func Dataflow.cprop_merge true
              ["block.00"; "L"; "E"; "L"] _) as [r2|] eqn:H2;
    [|by vm_compute in H2].
  exists r1. split; [done|]. f_equal. symmetry.
  exact (cprop_result_unique _ _ _ _ _ _ _ _ H1 H2).
Defined.

(** Reaching definitions with the solver of [loop/dataflow.py], on a
    graph whose predecessor sets are the inverse of its successor
    sets. *)
Theorem reaching_defs_result_unique
    (graph : gmap string GraphNode) (label2block : gmap string (list instr))
    (pops1 pops2 : list string)
    (r1 r2 : gmap string (gmap string (gset string))
             * gmap string (gmap string (gset string))) :
  graph_consistent graph →
  LoopDataflow.data_flow_analysis graph label2block true ∅
    LoopDataflow.merge_dicts LoopDataflow.reaching_defs pops1 = Some r1 →
  LoopDataflow.data_flow_analysis graph label2block true ∅
    LoopDataflow.merge_dicts LoopDataflow.reaching_defs pops2 = Some r2 →
  r1 = r2.
Proof.
  apply (data_flow_analysis_unique Chaotic.defs_le ∅
           LoopDataflow.reaching_defs LoopDataflow.merge_dicts).
  - apply defs_le_antisym.
  - apply defs_le_empty.
  - apply merge_dicts_mono.
  - apply reaching_defs_mono.
Qed.

Lemma df_graph_consistent : graph_consistent df_graph.
Proof.
  intros b c. unfold df_graph. split; intros (n & Hn & Hc).
  - apply lookup_insert_Some in Hn as [[<- <-]|[_ Hn]]; [set_solver|].
    apply lookup_insert_Some in Hn as [[<- <-]|[_ Hn]].
    + simpl in Hc. apply elem_of_union in Hc as [->%elem_of_singleton | ->%elem_of_singleton].
      * eexists. split; [by vm_compute|]. set_solver.
      * eexists. split; [by vm_compute|]. set_solver.
    + apply lookup_singleton_Some in Hn as [<- <-]. simpl in Hc.
      apply elem_of_singleton in Hc as ->.
      eexists. split; [by vm_compute|]. set_solver.
  - apply lookup_insert_Some in Hn as [[<- <-]|[_ Hn]].
    + simpl in Hc. apply elem_of_singleton in Hc as ->.
      eexists. split; [by vm_compute|]. set_solver.
    + apply lookup_insert_Some in Hn as [[<- <-]|[_ Hn]].
      * simpl in Hc.
        apply elem_of_union in Hc as [->%elem_of_singleton | ->%elem_of_singleton].
        -- eexists. split; [by vm_compute|]. set_solver.
        -- eexists. split; [by vm_compute|]. set_solver.
      * apply lookup_singleton_Some in Hn as [<- <-]. set_solver.
Qed.

Lemma reaching_defs_result_unique_witness :
  ∃ r,
    LoopDataflow.data_flow_analysis df_graph df_label2block true ∅
      LoopDataflow.merge_dicts LoopDataflow.reaching_defs
      ["E"; "L"; "block.00"; "L"; "E"; "L"] = Some r
    ∧ LoopDataflow.data_flow_analysis df_graph df_label2block true ∅
        LoopDataflow.merge_dicts LoopDataflow.reaching_defs
        ["block.00"; "L"; "E"; "L"] = Some r.
Proof.
  destruct (LoopDataflow.data_flow_analysis df_graph df_label2block true ∅
              LoopDataflow.merge_dicts LoopDataflow.reaching_defs
              ["E"; "L"; "block.00"; "L"; "E"; "L"]) as [r1|] eqn:H1;
    [|by vm_compute in H1].
  destruct (LoopDataflow.data_flow_analysis df_graph df_label2block true ∅
              LoopDataflow.merge_dicts LoopDataflow.reaching_defs
              ["block.00"; "L"; "E"; "L"]) as [r2|] eqn:H2;
    [|by vm_compute in H2].
  exists r1. split; [done|]. f_equal. symmetry.
  exact (reaching_defs_result_unique _ _ _ _ _ _ df_graph_consistent H1 H2).
Defined.

(** *** A complete run ends in a solution of the dataflow equations *)

(** This needs no monotonicity: it holds for every transfer and merge
    function. *)
Lemma run_keeps_solved {V : Type} `{EqDecision V}
    (src dst : string → list string) (merge_fn : list V → V)
    (T : string → V → option V) (pops : list string) (s s' : Chaotic.state) :
  (∀ b c, c ∈ src b → b ∈ dst c) →
  Chaotic.run src dst merge_fn T pops s = Some s' →
  (∀ c, is_Some (Chaotic.far s' !! c) ↔ is_Some (Chaotic.far s !! c))
  ∧ (Chaotic.solved_off_work src merge_fn T s →
     Chaotic.solved_off_work src merge_fn T s').
Proof.
  intros Hadj Hrun.
  assert (∀ v w : V, v = w → w = v → v = w) as H1 by (intros; congruence).
  assert (∀ l1 l2 : list V, Forall2 eq l1 l2 → merge_fn l1 = merge_fn l2) as H2.
  { intros l1 l2 Hl. f_equal. by apply list_eq_Forall2. }
  assert (∀ (b : string) (v1 v2 w1 w2 : V),
            v1 = v2 → T b v1 = Some w1 → T b v2 = Some w2 → w1 = w2) as H3
    by (intros; congruence).
  destruct (run_invariants src dst merge_fn T eq Hadj H1 H2 H3
              pops s s' ∅ Hrun) as (Hd & _ & Hs & _).
  done.
Qed.

(** Forward: when [worklist_algorithm] returns [(In, Out)], then for
    every label [b] bound in [Out] the value [In[b]] is the merge of
    [Out] at the predecessors of [b] and [Out[b]] is the transfer of
    [In[b]] through the block of [b]. *)
Theorem worklist_forward_solution {V : Type} `{EqDecision V}
    (cfg : gmap string (list string)) (block_labels : list string)
    (blocks : list (list instr))
    (transfer_fn : list instr → V → option V) (merge_fn : list V → V)
    (pops : list string) (W : gset string) (In0 Out0 : gmap string V)
    (r : gmap string V * gmap string V) (b : string) (v : V) :
  (∀ c, is_Some (Out0 !! c) → c ∈ W) →
  Dataflow.worklist_algorithm cfg block_labels blocks transfer_fn merge_fn
                              true pops (Dataflow.WL W In0 Out0) = Some r →
  r.2 !! b = Some v →
  ∃ outs block_index curr_block,
    mapM (λ pred_label, r.2 !! pred_label) (Dataflow.get_predecessor cfg b)
    = Some outs
    ∧ r.1 !! b = Some (merge_fn outs)
    ∧ py_index b block_labels = Some block_index
    ∧ blocks !! block_index = Some curr_block
    ∧ transfer_fn curr_block (merge_fn outs) = Some v.
Proof.
  intros HW. unfold Dataflow.worklist_algorithm.
  destruct (Dataflow.worklist_run _ _ _ _ _ _ _ _) as [s'|] eqn:Hrun; [|done].
  simpl. case_decide as He; [|done]. intros [= <-]. simpl. intros Hb.
  apply worklist_run_chaotic in Hrun.
  apply run_keeps_solved in Hrun as [_ Hs]; [|apply wl_adjacent].
  destruct (Hs) with (c := b) as (outs & new & Hm & Hn & HT & Hf).
  - intros c Hc Hw. destruct Hw. by apply HW.
  - simpl. by eexists.
  - simpl. rewrite He. set_solver.
  - unfold Chaotic.wl_src, Chaotic.of_wl, Chaotic.wl_T in *. simpl in *.
    destruct (py_index b block_labels) as [idx|] eqn:Hi; [|done]. simpl in HT.
    destruct (blocks !! idx) as [blk|] eqn:Hk; [|done]. simpl in HT.
    exists outs, idx, blk. split_and!; [done..|congruence].
Qed.

Lemma worklist_forward_solution_witness :
  ∃ outs block_index curr_block,
    mapM (λ pred_label, (df_cprop_In, df_cprop_Out).2 !! pred_label)
         (Dataflow.get_predecessor df_cfg "L") = Some outs
    ∧ (df_cprop_In, df_cprop_Out).1 !! "L" = Some (Dataflow.cprop_merge outs)
    ∧ py_index "L" df_labels = Some block_index
    ∧ df_blocks !! block_index = Some curr_block
    ∧ Dataflow.cprop_func curr_block (Dataflow.cprop_merge outs)
      = Some {[ "a" := PInt 4; "b" := PStr "?" ]}.
Proof.
  apply (worklist_forward_solution df_cfg df_labels df_blocks
           Dataflow.cprop_func Dataflow.cprop_merge
           ["block.00"; "L"; "E"; "L"] df_work
           (gset_to_gmap ∅ df_work) (gset_to_gmap ∅ df_work)).
  - intros c [v [Hc _]%lookup_gset_to_gmap_Some]. exact Hc.
  - by vm_compute.
  - by vm_compute.
Defined.

(** Backward: [Out[b]] is the merge of [In] at the successors
    [cfg[b]], and [In[b]] is the transfer of [Out[b]]. *)
Theorem worklist_backward_solution {V : Type} `{EqDecision V}
    (cfg : gmap string (list string)) (block_labels : list string)
    (blocks : list (list instr))
    (transfer_fn : list instr → V → option V) (merge_fn : list V → V)
    (pops : list string) (W : gset string) (In0 Out0 : gmap string V)
    (r : gmap string V * gmap string V) (b : string) (v : V) :
  (∀ c, is_Some (In0 !! c) → c ∈ W) →
  Dataflow.worklist_algorithm cfg block_labels blocks transfer_fn merge_fn
                              false pops (Dataflow.WL W In0 Out0) = Some r →
  r.1 !! b = Some v →
  ∃ ins block_index curr_block,
    mapM (λ succ_label, r.1 !! succ_label) (default [] (cfg !! b)) = Some ins
    ∧ r.2 !! b = Some (merge_fn ins)
    ∧ py_index b block_labels = Some block_index
    ∧ blocks !! block_index = Some curr_block
    ∧ transfer_fn curr_block (merge_fn ins) = Some v.
Proof.
  intros HW. unfold Dataflow.worklist_algorithm.
  destruct (Dataflow.worklist_run _ _ _ _ _ _ _ _) as [s'|] eqn:Hrun; [|done].
  simpl. case_decide as He; [|done]. intros [= <-]. simpl. intros Hb.
  apply worklist_run_chaotic in Hrun.
  apply run_keeps_solved in Hrun as [_ Hs]; [|apply wl_adjacent].
  destruct (Hs) with (c := b) as (ins & new & Hm & Hn & HT & Hf).
  - intros c Hc Hw. destruct Hw. by apply HW.
  - simpl. by eexists.
  - simpl. rewrite He. set_solver.
  - unfold Chaotic.wl_src, Chaotic.of_wl, Chaotic.wl_T in *. simpl in *.
    destruct (py_index b block_labels) as [idx|] eqn:Hi; [|done]. simpl in HT.
    destruct (blocks !! idx) as [blk|] eqn:Hk; [|done]. simpl in HT.
    exists ins, idx, blk. split_and!; [done..|congruence].
Qed.

Lemma worklist_backward_solution_witness :
  ∃ ins block_index curr_block,
    mapM (λ succ_label, (df_live_In, df_live_Out).1 !! succ_label)
         (default [] (df_cfg !! "L")) = Some ins
    ∧ (df_live_In, df_live_Out).2 !! "L" = Some (Dataflow.union ins)
    ∧ py_index "L" df_labels = Some block_index
    ∧ df_blocks !! block_index = Some curr_block
    ∧ Dataflow.live_func curr_block (Dataflow.union ins) = Some {[ "a" ]}.
Proof.
  apply (worklist_backward_solution df_cfg df_labels df_blocks
           Dataflow.live_func Dataflow.union
           ["E"; "L"; "block.00"; "L"] df_work
           (gset_to_gmap ∅ df_work) (gset_to_gmap ∅ df_work)).
  - intros c [v [Hc _]%lookup_gset_to_gmap_Some]. exact Hc.
  - by vm_compute.
  - by vm_compute.
Defined.
